(** * cleanrl/sdm_rl.py: DQN with DSOM and SDM layers

    A shallow embedding of the numeric core of [cleanrl/sdm_rl.py]: the
    epsilon schedules, the DSOM codebook update, the SDM read and
    renormalisation, the jitted [update] and the training loop of [main].

    Numbers.  Python floats and [jnp] array entries are modelled as exact
    real numbers extended with the IEEE special values [+inf], [-inf] and
    [nan], which is what the array code produces on a division by zero.
    Rounding and overflow are not modelled, and zero carries no sign (every
    divisor in this program is a norm or a square, so a zero divisor is
    [+0]).  A Python-level float division by zero raises instead.  The
    linear schedule, which is plain Python arithmetic, is given a second
    time in binary64, the format of Python floats and of Rocq's primitive
    floats.

    Tracing.  [update] is decorated with [jax.jit]; the model follows the
    body as Python runs it, so that the attribute write of [dsom_update]
    takes effect at every call.

    Collaborators.  The forward pass [q_network.apply], automatic
    differentiation, the Adam transformation, the environments and the
    replay buffer are parameters of the model. *)

From Stdlib Require Import Floats.
From Stdlib Require Import Reals Lra Lia ZArith List String Sorted.
From stdpp Require Import gmap strings list fin_maps.

Open Scope R_scope.

(** ** Array entries *)

Inductive num : Type :=
| Fin (r : R)
| PInf
| NInf
| NaN.

Definition is_fin (x : num) : Prop :=
  match x with Fin _ => True | _ => False end.

Definition is_nan (x : num) : Prop :=
  match x with NaN => True | _ => False end.

(** [r * inf] for a finite [r]: the sign of [r] picks the infinity and
    [0 * inf] is [nan]. *)
Definition by_sign (r : R) (pos neg : num) : num :=
  if Rlt_dec 0 r then pos else if Rlt_dec r 0 then neg else NaN.

Definition nneg (x : num) : num :=
  match x with
  | Fin a => Fin (- a)
  | PInf => NInf
  | NInf => PInf
  | NaN => NaN
  end.

Definition nadd (x y : num) : num :=
  match x, y with
  | NaN, _ | _, NaN => NaN
  | Fin a, Fin b => Fin (a + b)
  | PInf, NInf | NInf, PInf => NaN
  | PInf, _ | _, PInf => PInf
  | NInf, _ | _, NInf => NInf
  end.

Definition nsub (x y : num) : num := nadd x (nneg y).

Definition nmul (x y : num) : num :=
  match x, y with
  | NaN, _ | _, NaN => NaN
  | Fin a, Fin b => Fin (a * b)
  | Fin a, PInf | PInf, Fin a => by_sign a PInf NInf
  | Fin a, NInf | NInf, Fin a => by_sign a NInf PInf
  | PInf, PInf | NInf, NInf => PInf
  | PInf, NInf | NInf, PInf => NInf
  end.

Definition ndiv (x y : num) : num :=
  match x, y with
  | NaN, _ | _, NaN => NaN
  | Fin a, Fin b => if Req_dec_T b 0 then by_sign a PInf NInf else Fin (a / b)
  | Fin _, (PInf | NInf) => Fin 0
  | PInf, Fin b => if Rlt_dec b 0 then NInf else PInf
  | NInf, Fin b => if Rlt_dec b 0 then PInf else NInf
  | (PInf | NInf), (PInf | NInf) => NaN
  end.

(** [x ** 2] *)
Definition nsquare (x : num) : num := nmul x x.

Definition nsqrt (x : num) : num :=
  match x with
  | Fin a => if Rlt_dec a 0 then NaN else Fin (sqrt a)
  | PInf => PInf
  | NInf | NaN => NaN
  end.

Definition nexp (x : num) : num :=
  match x with
  | Fin a => Fin (exp a)
  | PInf => PInf
  | NInf => Fin 0
  | NaN => NaN
  end.

(** [jnp.maximum] and [jnp.minimum] propagate [nan]. *)
Definition nmaximum (x y : num) : num :=
  match x, y with
  | NaN, _ | _, NaN => NaN
  | PInf, _ | _, PInf => PInf
  | NInf, z | z, NInf => z
  | Fin a, Fin b => Fin (Rmax a b)
  end.

Definition nminimum (x y : num) : num :=
  match x, y with
  | NaN, _ | _, NaN => NaN
  | NInf, _ | _, NInf => NInf
  | PInf, z | z, PInf => z
  | Fin a, Fin b => Fin (Rmin a b)
  end.

(** [x < y]; false as soon as one side is [nan]. *)
Definition nltb (x y : num) : bool :=
  match x, y with
  | NaN, _ | _, NaN => false
  | Fin a, Fin b => if Rlt_dec a b then true else false
  | NInf, (Fin _ | PInf) => true
  | Fin _, PInf => true
  | _, _ => false
  end.

(** The order [jnp.sort] sorts by: the usual one, with [nan] last. *)
Definition sort_leb (x y : num) : bool :=
  match x, y with
  | _, NaN => true
  | NaN, _ => false
  | NInf, _ => true
  | _, NInf => false
  | _, PInf => true
  | PInf, _ => false
  | Fin a, Fin b => if Rle_dec a b then true else false
  end.


(** ** Exceptions *)

Inductive exn : Type :=
| Exception (msg : string)
| ZeroDivisionError
| UnboundLocalError (name : string)
| KeyError (key : string)
| ValueError (msg : string)
| OverflowError (msg : string)
| ShapeError (msg : string).

Inductive result (A : Type) : Type :=
| Ok (a : A)
| Raise (e : exn).

Arguments Ok {A} a.
Arguments Raise {A} e.


#[global] Instance result_ret : MRet result := fun _ a => Ok a.
#[global] Instance result_bind : MBind result := fun _ _ f m =>
  match m with Ok a => f a | Raise e => Raise e end.

(** ** Epsilon schedules *)

(** Python's built-in [max(a, b)]: the second argument wins only when it
    is strictly larger. *)
Definition py_max (a b : R) : R := if Rlt_dec a b then b else a.

(** Python float division. *)
Definition py_div (a b : R) : result R :=
  if Req_dec_T b 0 then Raise ZeroDivisionError else Ok (a / b).

Definition linear_schedule (start_e end_e duration : R) (t : Z) : result R :=
  slope ← py_div (end_e - start_e) duration;
  Ok (py_max (slope * IZR t + start_e) end_e).

Definition exponential_schedule (start_e end_e decay : R) (t : nat) : result R :=
  let eps := start_e * decay ^ t in
  Ok (py_max eps end_e).

(** *** The linear schedule in binary64 *)

(** The conversion of a Python integer in [float * int]: the nearest
    binary64 number, ties to even, and an [OverflowError] past the largest
    one. *)
Definition float_of_int (t : Z) : result float :=
  let f := SF2Prim (binary_normalize prec emax t 0 false) in
  if is_infinity f
  then Raise (OverflowError "int too large to convert to float")
  else Ok f.

Definition py_float_max (a b : float) : float :=
  if (a <? b)%float then b else a.

Definition py_float_div (a b : float) : result float :=
  if (b =? 0)%float then Raise ZeroDivisionError else Ok (a / b)%float.

Definition linear_schedule_binary64 (start_e end_e duration : float) (t : Z)
  : result float :=
  slope ← py_float_div (end_e - start_e)%float duration;
  t ← float_of_int t;
  Ok (py_float_max (slope * t + start_e)%float end_e).

(** The defaults of [parse_args] as floats: [end_e] is the binary64
    number nearest to 0.05, and [duration] is
    [args.exploration_fraction * args.total_timesteps = 0.5 * 500000]. *)
Definition binary64_end_e : float := 0x1.999999999999ap-5.
Definition binary64_duration : float := (0x1p-1 * 500000)%float.

(** ** Arrays

    A rank-1 array is a list, a rank-2 array a list of rows, a rank-3
    array a list of rank-2 arrays.  The shapes are the ones the comments
    of the source give: [(neuron_dim, obs_dim)], [(batch_dim, obs_dim)]
    and so on. *)

Abbreviation array1 := (list num).
Abbreviation array2 := (list (list num)).
Abbreviation array3 := (list (list (list num))).

(** A rank-2 array with [K] columns: every row has [K] entries. *)
Definition rect {A} (K : nat) (m : list (list A)) : Prop :=
  Forall (fun r => length r = K) m.

Definition nrows {A} (m : list (list A)) : nat := length m.
Definition ncols {A} (m : list (list A)) : nat := length (hd [] m).

(** NumPy broadcasting along one axis: an axis of size 1 is stretched,
    otherwise the two sides go elementwise.  (Sizes that differ and are
    both other than 1 make NumPy raise; callers check the shapes where
    the program can get there.) *)
Definition bcast {A B C} (f : A -> B -> C) (xs : list A) (ys : list B) : list C :=
  match xs, ys with
  | [x], _ => map (f x) ys
  | _, [y] => map (fun x => f x y) xs
  | _, _ => zip_with f xs ys
  end.

Definition bcast2 {A B C} (f : A -> B -> C) := bcast (bcast f).
Definition bcast3 {A B C} (f : A -> B -> C) := bcast (bcast (bcast f)).

Definition broadcast_ok (m n : nat) : bool :=
  (m =? n)%nat || (m =? 1)%nat || (n =? 1)%nat.

(** [jnp.expand_dims(a, 0)], [jnp.expand_dims(a, 1)] and
    [jnp.expand_dims(a, -1)]. *)
Definition expand_dims_0 {A} (a : list A) : list (list A) := [a].
Definition expand_dims_1 {A} (a : list A) : list (list A) := map (fun r => [r]) a.
Definition expand_dims_last (a : array2) : array3 := map (map (fun x => [x])) a.

Definition ravel (a : array2) : array1 := concat a.

(** [jnp.sum] over the last axis. *)
Definition jnp_sum (v : array1) : num := foldr nadd (Fin 0) v.

(** [jnp.linalg.norm] over the last axis. *)
Definition linalg_norm (v : array1) : num := nsqrt (jnp_sum (map nsquare v)).

(** [jnp.max] of a rank-1 array. *)
Definition jnp_max (v : array1) : result num :=
  match v with
  | [] => Raise (ValueError "zero-size array to reduction operation max which has no identity")
  | x :: t => Ok (foldl nmaximum x t)
  end.

(** [global_max] of the source: [jnp.max(jnp.ravel(x))]. *)
Definition global_max (x : array2) : result num := jnp_max (ravel x).

(** [jnp.argmin] of a row: the first [nan] if there is one, otherwise the
    first smallest entry. *)
Definition argmin_picks (x best : num) : bool :=
  match x, best with
  | NaN, NaN => false
  | NaN, _ => true
  | _, _ => nltb x best
  end.

Fixpoint argmin_from (i best_i : nat) (best : num) (v : array1) : nat :=
  match v with
  | [] => best_i
  | x :: t =>
      if argmin_picks x best then argmin_from (S i) i x t
      else argmin_from (S i) best_i best t
  end.

Definition argmin (v : array1) : nat :=
  match v with
  | [] => 0%nat
  | x :: t => argmin_from 1 0 x t
  end.

(** [a[i]] for a traced index array entry [i]: an index past the end is
    clamped to the last position. *)
Definition take_clamp {A} (d : A) (a : list A) (i : nat) : A :=
  nth (Nat.min i (length a - 1)) a d.

(** [a[i]] for a Python integer [i]: a negative index counts from the
    end, and the result is clamped into the array. *)
Definition getitem_int {A} (d : A) (a : list A) (i : Z) : A :=
  let n := Z.of_nat (length a) in
  let j := if (i <? 0)%Z then (i + n)%Z else i in
  nth (Z.to_nat (Z.min (Z.max j 0) (n - 1))) a d.

(** [jnp.sort] of a row, ascending. *)
Fixpoint sort_insert (x : num) (l : array1) : array1 :=
  match l with
  | [] => [x]
  | y :: t => if sort_leb x y then x :: y :: t else y :: sort_insert x t
  end.

Definition jnp_sort (v : array1) : array1 := foldr sort_insert [] v.

(** [a[:, j]] *)
Definition column (j : nat) (a : array2) : array1 :=
  map (fun row => nth j row NaN) a.

Definition transpose (a : array2) : array2 :=
  map (fun j => column j a) (seq 0 (ncols a)).

Definition dot (u v : array1) : num := jnp_sum (zip_with nmul u v).


(** [jnp.matmul] of two rank-2 arrays. *)
Definition matmul (a b : array2) : array2 :=
  map (fun row => map (dot row) (transpose b)) a.

(** [jnp.maximum(a, 0)] on a rank-2 array. *)
Definition maximum_0 (a : array2) : array2 :=
  map (map (fun x => nmaximum x (Fin 0))) a.

(** [jnp.clip(x, -1, 1)] *)
Definition clip_1 (x : num) : num := nminimum (nmaximum x (Fin (-1))) (Fin 1).

(** [jnp.linalg.norm(a, axis=0)]: the norm of every column. *)
Definition norm_axis0 (a : array2) : array1 := map linalg_norm (transpose a).

(** [jnp.linalg.norm(a, axis=-1)] on a rank-2 and on a rank-3 array. *)
Definition norm_last2 (a : array2) : array1 := map linalg_norm a.
Definition norm_last3 (a : array3) : array2 := map (map linalg_norm) a.

(** A parameter dictionary [params['params']]: tensors by name. *)
Definition getitem (params : gmap string array2) (key : string) : result array2 :=
  match params !! key with
  | Some a => Ok a
  | None => Raise (KeyError key)
  end.

(** [jnp.matmul]; the inner dimensions have to agree. *)
Definition matmul_checked (a b : array2) : result array2 :=
  if forallb (fun row => (length row =? nrows b)%nat) a
  then Ok (matmul a b)
  else Raise (ShapeError "matmul").

(** [a op v] for a rank-2 [a] and a rank-1 [v]: [v] is aligned with the
    last axis of [a]. *)
Definition bcast_rows (f : num -> num -> num) (a : array2) (v : array1)
  : result array2 :=
  if broadcast_ok (ncols a) (length v)
  then Ok (bcast2 f a [v])
  else Raise (ShapeError "incompatible shapes for broadcasting").

(** ** SDM *)

(** [self.k], set in [SDM.setup]. *)
Definition SDM_k : R := 995 / 1000.

(** [k_abs = math.ceil(self.k*args.hidden_size) + 1] *)
Definition k_abs (k : R) (hidden_size : Z) : Z :=
  (Zceil (k * IZR hidden_size) + 1)%Z.

(** The top-k step of [sdm_layer]: sort every row, read the entry at
    position [-k_abs], squeeze, subtract and clip at zero.  The squeezed
    [min_activation] has one entry per sample and is a rank-1 array (a
    scalar for a single sample), so the subtraction aligns it with the
    last axis of [activations]. *)
Definition top_k (k_abs : Z) (activations : array2) : result array2 :=
  let sorted_activations := map jnp_sort activations in
  let min_activation := map (fun row => getitem_int NaN row (- k_abs)) sorted_activations in
  d ← bcast_rows nsub activations min_activation;
  Ok (maximum_0 d).

Definition sdm_layer (sdm_keys sdm_values : array2) (k : R) (hidden_size : Z)
    (x : array2) : result array2 :=
  x ← bcast_rows ndiv x (norm_last2 x);
  activations ← matmul_checked x sdm_keys;
  activations ← top_k (k_abs k hidden_size) activations;
  matmul_checked activations sdm_values.

Definition sdm_update (params : gmap string array2) : result (array2 * array2) :=
  sdm_keys ← getitem params "sdm_keys";
  sdm_values ← getitem params "sdm_values";
  let sdm_keys := maximum_0 sdm_keys in
  let sdm_keys := bcast2 ndiv sdm_keys [norm_axis0 sdm_keys] in
  let sdm_values := maximum_0 sdm_values in
  Ok (sdm_keys, sdm_values).

(** ** DSOM *)

(** The attributes of a [DSOM] instance that [dsom_update] reads and
    writes. *)
Record DSOM : Type := {
  max_dist : num;
  elasticity : R;
  lr : R;
}.

(** The class attributes. *)
Definition DSOM_init : DSOM :=
  {| max_dist := Fin 0; elasticity := 5 / 10; lr := 25 / 1000 |}.

Definition set_max_dist (self : DSOM) (v : num) : DSOM :=
  {| max_dist := v; elasticity := elasticity self; lr := lr self |}.

(** [jnp.sum(a, axis=0)] of a rank-3 array whose items have shape
    [(n, d)]. *)
Definition sum_axis0 (n d : nat) (a : array3) : array2 :=
  foldr (zip_with (zip_with nadd)) (replicate n (replicate d (Fin 0))) a.

(** [cb_vecs.squeeze() + delta_w] for [cb_vecs] of shape [(1, n, d)]:
    [squeeze] drops every axis of size 1, so for [d = 1 < n] a rank-1
    array of length [n] meets the [(n, 1)] delta and the sum has shape
    [(n, n)]; in every other case the sum is entrywise. *)
Definition squeeze_add (cb_vecs delta_w : array2) : array2 :=
  if (ncols cb_vecs =? 1)%nat && negb (nrows cb_vecs =? 1)%nat
  then bcast2 nadd [map (hd NaN) cb_vecs] delta_w
  else zip_with (zip_with nadd) cb_vecs delta_w.

(** [dsom_update] returns the instance with its attribute write next to
    the result: [self.max_dist] is assigned before the mode is looked at. *)
Definition dsom_update (self : DSOM) (params : gmap string array2)
    (obs : array2) (mode : string) : DSOM * result array2 :=
  match getitem params "som_codebook_vecs" with
  | Raise e => (self, Raise e)
  | Ok cb_vecs0 =>
  match getitem params "som_addresses" with
  | Raise e => (self, Raise e)
  | Ok addresses =>
  (* normalised distance metric *)
  let cb_vecs_copy := expand_dims_1 cb_vecs0 in
  let cb_vecs := expand_dims_0 cb_vecs0 in
  let x := norm_last3 (bcast3 nsub cb_vecs_copy cb_vecs) in
  match jnp_max (ravel x) with
  | Raise e => (self, Raise e)
  | Ok current_max_dist =>
  let self := set_max_dist self (nmaximum current_max_dist (max_dist self)) in
  (* align the observations *)
  let obs := expand_dims_1 obs in
  let diff := bcast3 nsub obs cb_vecs in
  let dist := norm_last3 diff in
  let winner_idx := map argmin dist in
  let dist_normed := map (map (fun v => ndiv v (max_dist self))) dist in
  (* h numerator *)
  let winner_addresses := map (take_clamp [] addresses) winner_idx in
  let winner_addresses := expand_dims_1 winner_addresses in
  let addresses := expand_dims_0 addresses in
  let numerators :=
    map (map jnp_sum)
      (map (map (map nsquare)) (bcast3 nsub addresses winner_addresses)) in
  (* h denominator: [cb_vecs] has shape (1, neuron_dim, obs_dim) here, so
     [winner_idx] indexes its leading axis of size 1 *)
  let winner_cb_vecs := map (take_clamp [] cb_vecs) winner_idx in
  let denominators :=
    map (map (fun v => nmul (Fin (elasticity self ^ 2))
                            (nsquare (ndiv v (max_dist self)))))
      (norm_last3 (bcast3 nsub obs winner_cb_vecs)) in
  let h := map (map nexp) (bcast2 ndiv (map (map nneg) numerators) denominators) in
  (* change in weights *)
  let dist_normed := expand_dims_last dist_normed in
  let h := expand_dims_last h in
  let delta_w_batch :=
    bcast3 nmul
      (bcast3 nmul (map (map (map (nmul (Fin (lr self))))) dist_normed) h)
      diff in
  (* collapse the batch dimension *)
  let summed := sum_axis0 (nrows cb_vecs0) (ncols cb_vecs0) delta_w_batch in
  let delta_w :=
    if String.eqb mode "avg"
    then Ok (map (map (fun s => ndiv s (Fin (INR (length delta_w_batch))))) summed)
    else if String.eqb mode "sum"
    then Ok summed
    else Raise (Exception "Invalid update mode") in
  match delta_w with
  | Raise e => (self, Raise e)
  | Ok delta_w =>
  let delta_w := map (map clip_1) delta_w in
  let new_cb_vecs := squeeze_add cb_vecs0 delta_w in
  (self, Ok new_cb_vecs)
  end end end end.

(** ** Parameter trees and the train state *)

(** [jax.tree_util.tree_map] over two parameter dictionaries; the two
    trees must have the same structure. *)
Definition tree_map2 (f : num -> num -> num) (a b : gmap string array2)
  : result (gmap string array2) :=
  if decide (dom a = dom b)
  then Ok (map_zip_with (zip_with (zip_with f)) a b)
  else Raise (ValueError "tree structure mismatch").

(** [optax.incremental_update(new_tensors, old_tensors, step_size)] *)
Definition incremental_update (new_tensors old_tensors : gmap string array2)
    (step_size : R) : result (gmap string array2) :=
  tree_map2 (fun new old =>
               nadd (nmul (Fin step_size) new) (nmul (Fin (1 - step_size)) old))
            new_tensors old_tensors.

(** [optax.apply_updates(params, updates)] *)
Definition apply_updates (params updates : gmap string array2)
  : result (gmap string array2) :=
  tree_map2 nadd params updates.

(** The configuration read by the numeric core. *)
Record Args : Type := {
  total_timesteps : Z;
  learning_starts : Z;
  train_frequency : Z;
  target_network_frequency : Z;
  batch_size : Z;
  gamma : R;
  tau : R;
  start_e : R;
  end_e : R;
  exploration_fraction : R;
  eps_decay : R;
  eps_scheduler : string;
  architecture : string;
  dsom_lr : R;
  args_elasticity : R;
  hidden_size : Z;
}.

(** A sampled batch, after the [.numpy()] / [.flatten()] conversions of
    the call site. *)
Record Batch : Type := {
  observations : array2;
  actions : list nat;
  next_observations : array2;
  rewards : array1;
  dones : array1;
}.

(** The network object: its class, and for a [DSOM] the attributes that
    [dsom_update] uses. *)
Inductive q_network_t : Type :=
| QNetwork
| DSOM_net (self : DSOM)
| SDM_net.

(** Python's [a % b] on integers. *)
Definition py_mod (a b : Z) : result Z :=
  if (b =? 0)%Z then Raise ZeroDivisionError else Ok (a mod b)%Z.

Section Training.

(** The optimizer state of [optax.adam]. *)
Context {OptState : Type}.

Record TrainState : Type := {
  step : Z;
  params : gmap string array2;
  target_params : gmap string array2;
  opt_state : OptState;
}.

(** [q_network.apply]: the forward pass, (batch, num_actions). *)
Variable apply_fn : q_network_t -> gmap string array2 -> array2 -> array2.

(** [jax.grad] of a scalar function of the parameters. *)
Variable grad : (gmap string array2 -> num) -> gmap string array2 -> gmap string array2.

(** [tx.update(grads, opt_state, params)] of [optax.adam]. *)
Variable adam_update :
  gmap string array2 -> OptState -> gmap string array2 -> gmap string array2 * OptState.

(** [TrainState.apply_gradients] (flax). *)
Definition apply_gradients (q_state : TrainState) (grads : gmap string array2)
  : result TrainState :=
  let '(updates, new_opt_state) :=
    adam_update grads (opt_state q_state) (params q_state) in
  new_params ← apply_updates (params q_state) updates;
  Ok {| step := step q_state + 1;
        params := new_params;
        target_params := target_params q_state;
        opt_state := new_opt_state |}.

Definition replace_params (q_state : TrainState) (p : gmap string array2) : TrainState :=
  {| step := step q_state; params := p;
     target_params := target_params q_state; opt_state := opt_state q_state |}.

Definition replace_target_params (q_state : TrainState) (p : gmap string array2) : TrainState :=
  {| step := step q_state; params := params q_state;
     target_params := p; opt_state := opt_state q_state |}.

(** [rewards + (1 - dones) * args.gamma * q_next_target] *)
Definition td_target (args : Args) (rewards dones q_next_target : array1) : array1 :=
  bcast nadd rewards
    (bcast nmul (map (fun y => nmul y (Fin (gamma args)))
                     (map (fun d => nsub (Fin 1) d) dones))
                q_next_target).

(** [q_pred[jnp.arange(q_pred.shape[0]), actions.squeeze()]] *)
Definition index_actions (q_pred : array2) (actions : list nat) : array1 :=
  zip_with (fun row a => take_clamp NaN row a) q_pred actions.

(** [(v ** 2).mean()] *)
Definition mean (v : array1) : num := ndiv (jnp_sum v) (Fin (INR (length v))).

Definition mse_loss (q_network : q_network_t) (observations : array2)
    (actions : list nat) (next_q_value : array1) (params : gmap string array2)
  : num * array1 :=
  let q_pred := apply_fn q_network params observations in
  let q_pred := index_actions q_pred actions in
  (mean (map nsquare (bcast nsub q_pred next_q_value)), q_pred).

(** The block [if args.architecture == 'DSOM': ...] at the head of
    [update]: the codebook of the live parameters is overwritten by the
    result of [dsom_update]. *)
Definition dsom_block (args : Args) (q_network : q_network_t) (q_state : TrainState)
    (observations : array2) : result (TrainState * q_network_t) :=
  if String.eqb (architecture args) "DSOM" then
    match q_network with
    | DSOM_net self =>
        let '(self, r) := dsom_update self (params q_state) observations "avg" in
        new_cb_vecs ← r;
        Ok (replace_params q_state
              (<["som_codebook_vecs" := new_cb_vecs]> (params q_state)),
            DSOM_net self)
    | _ => Raise (Exception "AttributeError: dsom_update")
    end
  else Ok (q_state, q_network).

(** The block [if args.architecture == 'SDM': ...] at the end of
    [update]. *)
Definition sdm_block (args : Args) (q_state : TrainState) : result TrainState :=
  if String.eqb (architecture args) "SDM" then
    '(sdm_keys, sdm_values) ← sdm_update (params q_state);
    Ok (replace_params q_state
          (<["sdm_values" := sdm_values]>
             (<["sdm_keys" := sdm_keys]> (params q_state))))
  else Ok q_state.

Definition update (args : Args) (q_network : q_network_t) (q_state : TrainState)
    (observations : array2) (actions : list nat) (next_observations : array2)
    (rewards dones : array1)
  : result (num * array1 * TrainState * q_network_t) :=
  '(q_state, q_network) ← dsom_block args q_network q_state observations;
  let q_next_target := apply_fn q_network (target_params q_state) next_observations in
  q_next_target ← mapM jnp_max q_next_target;
  let next_q_value := td_target args rewards dones q_next_target in
  let loss := mse_loss q_network observations actions next_q_value in
  let '(loss_value, q_pred) := loss (params q_state) in
  let grads := grad (fun p => fst (loss p)) (params q_state) in
  q_state ← apply_gradients q_state grads;
  q_state ← sdm_block args q_state;
  Ok (loss_value, q_pred, q_state, q_network).

End Training.

(** ** The training loop *)

Section Main.

Context {OptState : Type}.

(** The collaborators: the environments, the replay buffer, the random
    generators and the writer share one state. *)
Context {World : Type}.

Variable apply_fn : q_network_t -> gmap string array2 -> array2 -> array2.
Variable grad : (gmap string array2 -> num) -> gmap string array2 -> gmap string array2.
Variable adam_update :
  gmap string array2 -> OptState -> gmap string array2 -> gmap string array2 * OptState.

(** [q_network.init(q_key, obs)] and [tx.init(params)]. *)
Variable init : q_network_t -> gmap string array2.
Variable adam_init : gmap string array2 -> OptState.

(** One step of acting: the epsilon-greedy choice, [envs.step], the
    episode log and [rb.add]; the number returned is the length of
    [infos["final_info"]] (0 when the key is absent). *)
Variable interact :
  World -> @TrainState OptState -> q_network_t -> R -> World * nat.

(** [rb.sample(args.batch_size)] *)
Variable rb_sample : World -> Z -> Batch * World.

Record LoopState : Type := {
  world : World;
  q_state : @TrainState OptState;
  q_network : q_network_t;
  q_network_k : option R;
  num_episodes : nat;
}.

(** The [if]/[elif] chain on [args.architecture]; there is no [else],
    so the local [q_network] can stay unbound. *)
Definition select_network (args : Args) : option q_network_t :=
  if String.eqb (architecture args) "BASELINE" then Some QNetwork
  else if String.eqb (architecture args) "DSOM" then
    Some (DSOM_net {| max_dist := Fin 0;
                      elasticity := args_elasticity args;
                      lr := dsom_lr args |})
  else if String.eqb (architecture args) "SDM" then Some SDM_net
  else None.

(** Reading a local variable. *)
Definition read_local {A} (name : string) (v : option A) : result A :=
  match v with
  | Some a => Ok a
  | None => Raise (UnboundLocalError name)
  end.

(** Everything before the loop: the network, the train state and the
    first copy of the live parameters into the target parameters. *)
Definition setup (args : Args) (w : World) : result LoopState :=
  let q_network := select_network args in
  q_network ← read_local "q_network" q_network;
  let q_state :=
    {| step := 0;
       params := init q_network;
       target_params := init q_network;
       opt_state := adam_init (init q_network) |} in
  target ← incremental_update (params q_state) (target_params q_state) 1;
  let q_state := replace_target_params q_state target in
  Ok {| world := w; q_state := q_state; q_network := q_network;
        q_network_k := None; num_episodes := 0 |}.

Definition epsilon_of (args : Args) (global_step : Z) (num_episodes : nat)
  : result R :=
  if String.eqb (eps_scheduler args) "LINEAR" then
    linear_schedule (start_e args) (end_e args)
      (exploration_fraction args * IZR (total_timesteps args)) global_step
  else if String.eqb (eps_scheduler args) "EXPONENTIAL" then
    exponential_schedule (start_e args) (end_e args) (eps_decay args) num_episodes
  else Raise (Exception EmptyString).

(** The body of [for global_step in range(args.total_timesteps)]. *)
Definition loop_body (args : Args) (global_step : Z) (st : LoopState)
  : result LoopState :=
  epsilon ← epsilon_of args global_step (num_episodes st);
  let '(w, finished) := interact (world st) (q_state st) (q_network st) epsilon in
  let st := {| world := w; q_state := q_state st; q_network := q_network st;
               q_network_k := q_network_k st;
               num_episodes := num_episodes st + finished |} in
  if (global_step >? learning_starts args)%Z then
    r ← py_mod global_step (train_frequency args);
    st ← (if (r =? 0)%Z then
            let '(data, w) := rb_sample (world st) (batch_size args) in
            '(loss, old_val, qs, net) ←
              update apply_fn grad adam_update args (q_network st) (q_state st)
                (observations data) (actions data) (next_observations data)
                (rewards data) (dones data);
            Ok {| world := w; q_state := qs; q_network := net;
                  q_network_k := Some epsilon;
                  num_episodes := num_episodes st |}
          else Ok st);
    (* update target network *)
    r ← py_mod global_step (target_network_frequency args);
    if (r =? 0)%Z then
      target ← incremental_update (params (q_state st))
                 (target_params (q_state st)) (tau args);
      Ok {| world := world st;
            q_state := replace_target_params (q_state st) target;
            q_network := q_network st; q_network_k := q_network_k st;
            num_episodes := num_episodes st |}
    else Ok st
  else Ok st.

Fixpoint run_loop (args : Args) (steps : list Z) (st : LoopState)
  : result LoopState :=
  match steps with
  | [] => Ok st
  | global_step :: rest =>
      st ← loop_body args global_step st;
      run_loop args rest st
  end.

(** [range(n)] *)
Definition range (n : Z) : list Z := map Z.of_nat (seq 0 (Z.to_nat n)).

Definition main (args : Args) (w : World) : result LoopState :=
  st ← setup args w;
  run_loop args (range (total_timesteps args)) st.

End Main.

(** ** Real-valued readings

    Arrays of real numbers, and the real functions that the array
    operations compute on them. *)

Definition inj1 (v : list R) : array1 := map Fin v.
Definition inj2 (m : list (list R)) : array2 := map inj1 m.

Definition Rsum (v : list R) : R := foldr Rplus 0 v.
Definition sumsq (v : list R) : R := Rsum (map (fun x => x * x) v).

(** Euclidean distance. *)
Definition euclid (u v : list R) : R := sqrt (sumsq (zip_with Rminus u v)).

(** The largest entry of a non-empty list. *)
Definition Rlist_max (x : R) (l : list R) : R := foldl Rmax x l.

(** Column [j] of a real matrix after clipping at zero, and the closed
    form of the keys that [sdm_update] returns for a real key matrix with
    [K] columns. *)
Definition clipped_column (j : nat) (m : list (list R)) : list R :=
  map (fun r => Rmax (nth j r 0) 0) m.

Definition sdm_key_entry (m : list (list R)) (r : list R) (j : nat) : num :=
  ndiv (Fin (Rmax (nth j r 0) 0)) (Fin (sqrt (sumsq (clipped_column j m)))).

Definition sdm_keys_closed (K : nat) (m : list (list R)) : array2 :=
  map (fun r => map (sdm_key_entry m r) (seq 0 K)) m.

(** A parameter dictionary that holds an SDM memory. *)
Definition sdm_params (keys values : array2) : gmap string array2 :=
  <["sdm_values" := values]> (<["sdm_keys" := keys]> ∅).

(** A parameter tree of real numbers, and two trees of the same
    structure: the same names, and under every name the same shape. *)
Definition real_array (a : array2) : Prop := Forall (Forall is_fin) a.

Definition real_tree (p : gmap string array2) : Prop :=
  map_Forall (fun _ a => real_array a) p.

Definition same_shape (a b : array2) : Prop :=
  Forall2 (fun r s : array1 => length r = length s) a b.


(** The configuration values the program knows. *)
Definition supported_architecture (a : string) : Prop :=
  a = "BASELINE" \/ a = "DSOM" \/ a = "SDM".


Definition supported_mode (m : string) : Prop :=
  m = "avg" \/ m = "sum".

(** The distances between all pairs of prototypes of a real codebook,
    and the largest of them. *)
Definition pairwise_dists (c : list (list R)) : list R :=
  concat (map (fun u => map (euclid u) c) c).

Definition largest_pairwise (c : list (list R)) : R :=
  match pairwise_dists c with
  | [] => 0
  | x :: t => Rlist_max x t
  end.



(** A parameter dictionary that holds a DSOM codebook. *)
Definition dsom_params (cb_vecs addresses : array2) : gmap string array2 :=
  <["som_addresses" := addresses]> (<["som_codebook_vecs" := cb_vecs]> ∅).

(** What [dsom_update] computes on real arrays, entry by entry: [c] is
    the codebook, [a] the addresses, [o] one observation, [i] the index
    of a prototype, [maxd] the updated [max_dist]. *)
Section DsomReading.

Variables (lr0 e maxd : R) (a c : list (list R)).

(** The winner: the first prototype nearest to [o]. *)
Definition winner (o : list R) : nat := argmin (inj1 (map (euclid o) c)).

Definition numerator (o : list R) (i : nat) : R :=
  sumsq (zip_with Rminus (nth i a []) (take_clamp [] a (winner o))).

(** The denominator as the code has it: with the distance from [o] to
    prototype [i]. *)
Definition denominator (o : list R) (i : nat) : R :=
  e ^ 2 * (euclid o (nth i c []) / maxd * (euclid o (nth i c []) / maxd)).

Definition weight (o : list R) (i : nat) : num :=
  nexp (ndiv (Fin (- numerator o i)) (Fin (denominator o i))).

Definition item_delta (o : list R) (i : nat) : array1 :=
  map (fun x => nmul (nmul (Fin (lr0 * (euclid o (nth i c []) / maxd))) (weight o i))
                     (Fin x))
      (zip_with Rminus o (nth i c [])).

Definition batch_delta (obs : list (list R)) : array3 :=
  map (fun o => map (item_delta o) (seq 0 (length c))) obs.

Definition reduced_delta (mode : string) (obs : list (list R)) : array2 :=
  let summed := sum_axis0 (nrows c) (ncols c) (batch_delta obs) in
  if String.eqb mode "avg"
  then map (map (fun s => ndiv s (Fin (INR (length obs))))) summed
  else summed.

End DsomReading.


(** A codebook of four prototypes on the 2 x 2 address grid that
    [constant_initializer] builds. *)
Definition c4 : list (list R) := [[0; 0]; [3; 0]; [7; 0]; [12; 0]].
Definition a4 : list (list R) := [[0; 0]; [1; 0]; [0; 1]; [1; 1]].

(** Sorting real numbers, the [k]-th largest entry of a row, and counting
    the entries above a threshold and the non-zero entries. *)
Fixpoint Rinsert (x : R) (l : list R) : list R :=
  match l with
  | [] => [x]
  | y :: t => if Rle_dec x y then x :: y :: t else y :: Rinsert x t
  end.

Definition Rsort (v : list R) : list R := foldr Rinsert [] v.

Definition kth_largest (k : nat) (v : list R) : R :=
  nth (length v - k) (Rsort v) 0.

Definition count_above (m : R) (v : list R) : nat :=
  length (List.filter (fun x => if Rlt_dec m x then true else false) v).

Definition nonzero (x : num) : bool :=
  match x with
  | Fin r => if Req_dec_T r 0 then false else true
  | _ => true
  end.

Definition count_nonzero (v : array1) : nat := length (List.filter nonzero v).


Definition td_targets (gamma0 : R) (r d q : list R) : list R :=
  zip_with (fun r dq => r + (1 - fst dq) * gamma0 * snd dq) r (zip d q).


(** The default configuration of [parse_args] ([--architecture] has the
    integer default 10, which is none of the three tags), and trivial
    collaborators: a network with two actions that answers 0 everywhere,
    one parameter, an optimizer without state, an environment in which
    no episode ends. *)
Definition default_args : Args :=
  {| total_timesteps := 500000;
     learning_starts := 10000;
     train_frequency := 10;
     target_network_frequency := 500;
     batch_size := 128;
     gamma := 99 / 100;
     tau := 1;
     start_e := 1;
     end_e := 5 / 100;
     exploration_fraction := 5 / 10;
     eps_decay := 995 / 1000;
     eps_scheduler := "LINEAR";
     architecture := "10";
     dsom_lr := 5 / 100;
     args_elasticity := 5 / 100;
     hidden_size := 800 |}.

Definition with_architecture (a : string) (args : Args) : Args :=
  {| total_timesteps := total_timesteps args;
     learning_starts := learning_starts args;
     train_frequency := train_frequency args;
     target_network_frequency := target_network_frequency args;
     batch_size := batch_size args;
     gamma := gamma args;
     tau := tau args;
     start_e := start_e args;
     end_e := end_e args;
     exploration_fraction := exploration_fraction args;
     eps_decay := eps_decay args;
     eps_scheduler := eps_scheduler args;
     architecture := a;
     dsom_lr := dsom_lr args;
     args_elasticity := args_elasticity args;
     hidden_size := hidden_size args |}.

Definition with_learning_starts (n : Z) (args : Args) : Args :=
  {| total_timesteps := total_timesteps args;
     learning_starts := n;
     train_frequency := train_frequency args;
     target_network_frequency := target_network_frequency args;
     batch_size := batch_size args;
     gamma := gamma args;
     tau := tau args;
     start_e := start_e args;
     end_e := end_e args;
     exploration_fraction := exploration_fraction args;
     eps_decay := eps_decay args;
     eps_scheduler := eps_scheduler args;
     architecture := architecture args;
     dsom_lr := dsom_lr args;
     args_elasticity := args_elasticity args;
     hidden_size := hidden_size args |}.

Definition zero_apply (_ : q_network_t) (_ : gmap string array2) (x : array2)
  : array2 := map (fun _ => [Fin 0; Fin 0]) x.

Definition id_grad (_ : gmap string array2 -> num) (p : gmap string array2)
  : gmap string array2 := p.

Definition plain_update (grads : gmap string array2) (o : unit)
    (p : gmap string array2) : gmap string array2 * unit := (p, o).

Definition one_param (_ : q_network_t) : gmap string array2 :=
  {[ "w" := [[Fin 1]] ]}.

Definition unit_init (_ : gmap string array2) : unit := tt.

Definition still_world (w : unit) (_ : @TrainState unit) (_ : q_network_t) (_ : R)
  : unit * nat := (w, 0%nat).

Definition empty_sample (w : unit) (_ : Z) : Batch * unit :=
  ({| observations := []; actions := []; next_observations := [];
      rewards := []; dones := [] |}, w).

(** ** The SOM layer and its addresses *)

(** [DSOM.som_layer]: the mask [exp(-dists / self.k)] of every
    observation against every prototype, (batch_dim, neuron_dim). *)
Definition som_layer (som_codebook_vecs : array2) (k : R) (x : array2) : array2 :=
  let x := expand_dims_1 x in
  let codebook_vecs_expanded := expand_dims_0 som_codebook_vecs in
  let dists :=
    map (map (fun v => nsqrt (jnp_sum (map nsquare v))))
      (bcast3 nsub codebook_vecs_expanded x) in
  map (map (fun d => nexp (ndiv (nneg d) (Fin k)))) dists.

(** [math.sqrt] *)
Definition math_sqrt (x : R) : result R :=
  if Rlt_dec x 0 then Raise (ValueError "math domain error") else Ok (sqrt x).

(** [int(x)] of a float: truncation towards zero. *)
Definition int_of_float (x : R) : Z :=
  if Rle_dec 0 x then Zfloor x else Zceil x.

(** [jnp.arange(n)] *)
Definition arange (n : Z) : list Z := map Z.of_nat (seq 0 (Z.to_nat n)).

(** [jnp.meshgrid(a, b)] with the default indexing ['xy']: both results
    have one row per entry of [b]; the first repeats [a] in every row, the
    second fills row [i] with [b[i]]. *)
Definition meshgrid {A} (a b : list A) : list (list A) * list (list A) :=
  (map (fun _ => a) b, map (fun bi => map (fun _ => bi) a) b).

(** [constant_initializer(key, grid_dim)] of [DSOM.setup]. *)
Definition constant_initializer (grid_dim : R) : array2 :=
  let grid_dim := int_of_float grid_dim in
  let '(x, y) := meshgrid (arange grid_dim) (arange grid_dim) in
  let x := map (fun v => Fin (IZR v)) (concat x) in
  let y := map (fun v => Fin (IZR v)) (concat y) in
  zip_with (fun a b => [a; b]) x y.

(** The initial [som_addresses]:
    [self.param('som_addresses', constant_initializer, math.sqrt(args.hidden_size))]. *)
Definition som_addresses_init (hidden_size : Z) : result array2 :=
  grid_dim ← math_sqrt (IZR hidden_size);
  Ok (constant_initializer grid_dim).

(** ** Further readings *)

(** The smallest entry of a row. *)
Definition smallest (v : list R) : R := nth 0 (Rsort v) 0.

(** The iterations of the loop that train, and their number among the
    first [n]. *)
Definition trains (args : Args) (global_step : Z) : bool :=
  (global_step >? learning_starts args)%Z
  && (global_step mod train_frequency args =? 0)%Z.

Definition training_steps (args : Args) (n : Z) : Z :=
  Z.of_nat (length (List.filter (trains args) (range n))).

(** A configuration with another scheduler tag or exploration fraction. *)
Definition with_schedule (s : string) (fraction : R) (args : Args) : Args :=
  {| total_timesteps := total_timesteps args;
     learning_starts := learning_starts args;
     train_frequency := train_frequency args;
     target_network_frequency := target_network_frequency args;
     batch_size := batch_size args;
     gamma := gamma args;
     tau := tau args;
     start_e := start_e args;
     end_e := end_e args;
     exploration_fraction := fraction;
     eps_decay := eps_decay args;
     eps_scheduler := s;
     architecture := architecture args;
     dsom_lr := dsom_lr args;
     args_elasticity := args_elasticity args;
     hidden_size := hidden_size args |}.

Definition with_total_timesteps (n : Z) (args : Args) : Args :=
  {| total_timesteps := n;
     learning_starts := learning_starts args;
     train_frequency := train_frequency args;
     target_network_frequency := target_network_frequency args;
     batch_size := batch_size args;
     gamma := gamma args;
     tau := tau args;
     start_e := start_e args;
     end_e := end_e args;
     exploration_fraction := exploration_fraction args;
     eps_decay := eps_decay args;
     eps_scheduler := eps_scheduler args;
     architecture := architecture args;
     dsom_lr := dsom_lr args;
     args_elasticity := args_elasticity args;
     hidden_size := hidden_size args |}.

(** An array of shape [(n, d)]. *)
Definition shaped {A} (n d : nat) (x : list (list A)) : Prop :=
  length x = n /\ rect d x.

(** * Properties *)

(** ** Numbers *)

Lemma py_max_Rmax a b : py_max a b = Rmax a b.
Proof.
  unfold py_max, Rmax.
  destruct (Rlt_dec a b), (Rle_dec a b); try reflexivity; lra.
Qed.

Lemma by_sign_pos r p n : 0 < r -> by_sign r p n = p.
Proof. intros H. unfold by_sign. destruct (Rlt_dec 0 r); [reflexivity|lra]. Qed.

Lemma by_sign_neg r p n : r < 0 -> by_sign r p n = n.
Proof.
  intros H. unfold by_sign.
  destruct (Rlt_dec 0 r); [lra|]. destruct (Rlt_dec r 0); [reflexivity|lra].
Qed.

Lemma by_sign_zero p n : by_sign 0 p n = NaN.
Proof.
  unfold by_sign.
  destruct (Rlt_dec 0 0); [lra|]. destruct (Rlt_dec 0 0); [lra|reflexivity].
Qed.

Lemma ndiv_fin a b : b <> 0 -> ndiv (Fin a) (Fin b) = Fin (a / b).
Proof. intros H. cbn. destruct (Req_dec_T b 0); [contradiction|reflexivity]. Qed.

Lemma ndiv_zero_zero : ndiv (Fin 0) (Fin 0) = NaN.
Proof. cbn. destruct (Req_dec_T 0 0); [apply by_sign_zero|congruence]. Qed.

Lemma ndiv_pos_zero a : 0 < a -> ndiv (Fin a) (Fin 0) = PInf.
Proof.
  intros H. cbn. destruct (Req_dec_T 0 0); [now apply by_sign_pos|congruence].
Qed.

Lemma ndiv_nan_l y : ndiv NaN y = NaN.
Proof. reflexivity. Qed.

Lemma ndiv_nan_r x : ndiv x NaN = NaN.
Proof. now destruct x. Qed.

Lemma nsqrt_fin a : 0 <= a -> nsqrt (Fin a) = Fin (sqrt a).
Proof. intros H. cbn. destruct (Rlt_dec a 0); [lra|reflexivity]. Qed.

Lemma nmaximum_0_fin a : nmaximum (Fin a) (Fin 0) = Fin (Rmax a 0).
Proof. reflexivity. Qed.




(** ** Broadcasting *)

Lemma bcast_singleton_l {A B C} (f : A -> B -> C) x ys :
  bcast f [x] ys = map (f x) ys.
Proof. reflexivity. Qed.

Lemma bcast_singleton_r {A B C} (f : A -> B -> C) xs y :
  bcast f xs [y] = map (fun x => f x y) xs.
Proof. destruct xs as [|x [|x' xs]]; reflexivity. Qed.

Lemma bcast_same_length {A B C} (f : A -> B -> C) xs ys :
  length xs = length ys -> bcast f xs ys = zip_with f xs ys.
Proof.
  intros H.
  destruct xs as [|x [|x' xs]]; destruct ys as [|y [|y' ys]];
    try discriminate; reflexivity.
Qed.

(** ** Sums and norms of real vectors *)

Lemma jnp_sum_fin v : jnp_sum (inj1 v) = Fin (Rsum v).
Proof.
  unfold jnp_sum, inj1. induction v as [|a v IH]; [reflexivity|].
  cbn [map foldr]. rewrite IH. reflexivity.
Qed.

Lemma map_nsquare_fin v : map nsquare (inj1 v) = inj1 (map (fun x => x * x) v).
Proof.
  unfold inj1. induction v as [|a v IH]; [reflexivity|].
  cbn [map]. rewrite IH. reflexivity.
Qed.

Lemma sumsq_cons a v : sumsq (a :: v) = a * a + sumsq v.
Proof. reflexivity. Qed.

Lemma sumsq_nonneg v : 0 <= sumsq v.
Proof.
  induction v as [|a v IH]; [unfold sumsq; cbn; lra|].
  rewrite sumsq_cons. nra.
Qed.

Lemma sumsq_ge_elem v x : In x v -> x * x <= sumsq v.
Proof.
  induction v as [|a v IH]; [intros []|].
  rewrite sumsq_cons. pose proof (sumsq_nonneg v).
  intros [->|Hin]; [nra|]. specialize (IH Hin). nra.
Qed.

Lemma linalg_norm_fin v : linalg_norm (inj1 v) = Fin (sqrt (sumsq v)).
Proof.
  unfold linalg_norm. rewrite map_nsquare_fin, jnp_sum_fin.
  apply nsqrt_fin, sumsq_nonneg.
Qed.

(** ** Epsilon schedule *)

Lemma linear_schedule_ok start_e end_e duration t :
  duration <> 0 ->
  linear_schedule start_e end_e duration t
  = Ok (Rmax ((end_e - start_e) / duration * IZR t + start_e) end_e).
Proof.
  intros Hd. unfold linear_schedule, py_div.
  destruct (Req_dec_T duration 0) as [E|_]; [contradiction|].
  cbn. now rewrite py_max_Rmax.
Qed.

Lemma slope_nonpos start_e end_e duration :
  start_e >= end_e -> duration > 0 -> (end_e - start_e) / duration <= 0.
Proof.
  intros Hse Hd. unfold Rdiv.
  assert (0 < / duration) by now apply Rinv_0_lt_compat.
  nra.
Qed.

(** C6 (as amended). In exact arithmetic, with [start_e >= end_e] and
    [duration > 0], the linear schedule returns
    [max(start_e + t * (end_e - start_e) / duration, end_e)], is
    non-increasing in [t], and returns [end_e] itself for every
    [t >= duration].  In binary64 the sum at [t = duration] can round to
    a value above [end_e]: with the default configuration the schedule
    returns 0.050000000000000044 at step 250000, and [end_e] at step
    250001 and at the last step 499999. *)
Theorem linear_schedule_spec :
  (forall start_e end_e duration : R,
      start_e >= end_e -> duration > 0 ->
      (forall t : Z,
          linear_schedule start_e end_e duration t
          = Ok (Rmax (start_e + IZR t * (end_e - start_e) / duration) end_e))
      /\ (forall (t1 t2 : Z) (r1 r2 : R),
             (t1 <= t2)%Z ->
             linear_schedule start_e end_e duration t1 = Ok r1 ->
             linear_schedule start_e end_e duration t2 = Ok r2 ->
             r2 <= r1)
      /\ (forall t : Z,
             duration <= IZR t ->
             linear_schedule start_e end_e duration t = Ok end_e))
  /\ linear_schedule_binary64 1 binary64_end_e binary64_duration 250000
     = Ok 0x1.99999999999a0p-5%float
  /\ (binary64_end_e <? 0x1.99999999999a0p-5)%float = true
  /\ linear_schedule_binary64 1 binary64_end_e binary64_duration 250001
     = Ok binary64_end_e
  /\ linear_schedule_binary64 1 binary64_end_e binary64_duration 499999
     = Ok binary64_end_e.
Proof.
  split; [|repeat split; vm_compute; reflexivity].
  intros start_e end_e duration Hse Hd.
  assert (Hne : duration <> 0) by lra.
  pose proof (slope_nonpos _ _ _ Hse Hd) as Hs.
  repeat split.
  - intros t. rewrite linear_schedule_ok by assumption.
    f_equal. f_equal. field. assumption.
  - intros t1 t2 r1 r2 Ht.
    rewrite !linear_schedule_ok by assumption.
    intros [= <-] [= <-].
    apply IZR_le in Ht.
    apply Rmax_lub.
    + eapply Rle_trans; [|apply Rmax_l]. nra.
    + apply Rmax_r.
  - intros t Ht. rewrite linear_schedule_ok by assumption.
    f_equal. apply Rmax_right.
    assert (E : (end_e - start_e) / duration * duration = end_e - start_e)
      by (field; assumption).
    nra.
Qed.

Lemma linear_schedule_spec_witness :
  linear_schedule 1 (5 / 100) 250000 250000 = Ok (5 / 100).
Proof.
  apply (proj1 linear_schedule_spec 1 (5 / 100) 250000); lra.
Defined.

(** C6, where it fails.  The default run at step 250000, which is
    [duration]: [(0.05 - 1) / 250000.0] rounds to
    [-3.7999999999999996e-06], the product with 250000 to [-0.95], and
    [-0.95 + 1] to 0.050000000000000044, six units in the last place
    above [end_e]; [max] returns it. *)
Lemma linear_schedule_binary64_at_duration :
  exists v : float,
    linear_schedule_binary64 1 binary64_end_e binary64_duration 250000 = Ok v
    /\ (v =? binary64_end_e)%float = false
    /\ (binary64_end_e <? v)%float = true.
Proof.
  exists 0x1.99999999999a0p-5%float. repeat split; vm_compute; reflexivity.
Qed.

(** ** SDM: the threshold *)

(** C4 (as amended). [k_abs] is [ceil(k * hidden_size) + 1]; for
    [k = 0.995] and [hidden_size = 128] it is 129. *)
Theorem k_abs_value :
  (forall (k : R) (hidden_size : Z),
      k_abs k hidden_size = (Zceil (k * IZR hidden_size) + 1)%Z)
  /\ k_abs SDM_k 128 = 129%Z.
Proof.
  split; [reflexivity|].
  unfold k_abs, SDM_k. rewrite (Zceil_eq 128); [reflexivity|]. lra.
Qed.

Lemma k_abs_not_128 : k_abs (995 / 1000) 128 <> 128%Z.
Proof.
  unfold k_abs. rewrite (Zceil_eq 128); [discriminate|]. lra.
Qed.

(** ** Lists *)

Lemma nth_map_lt {A B} (f : A -> B) (l : list A) j d d' :
  (j < length l)%nat -> nth j (map f l) d' = f (nth j l d).
Proof.
  revert j. induction l as [|a l IH]; intros j Hj; cbn in *; [lia|].
  destruct j; [reflexivity|]. apply IH. lia.
Qed.

Lemma nth_zip_with_lt {A B C} (f : A -> B -> C) l k j dl dk d :
  (j < length l)%nat -> (j < length k)%nat ->
  nth j (zip_with f l k) d = f (nth j l dl) (nth j k dk).
Proof.
  revert k j. induction l as [|a l IH]; intros k j Hl Hk; cbn in *; [lia|].
  destruct k as [|b k]; cbn in *; [lia|].
  destruct j; [reflexivity|]. apply IH; lia.
Qed.

Lemma zip_with_map_seq {A B C} (f : A -> B -> C) l k n dl dk :
  length l = n -> length k = n ->
  zip_with f l k = map (fun j => f (nth j l dl) (nth j k dk)) (seq 0 n).
Proof.
  intros Hl Hk.
  assert (Hlen : length (zip_with f l k) = n).
  { rewrite length_zip_with. lia. }
  destruct l as [|a l].
  { cbn in *. subst n. reflexivity. }
  destruct k as [|b k]; [cbn in *; subst n; discriminate|].
  apply (nth_ext _ _ (f a b) (f a b)).
  - rewrite length_map, length_seq. exact Hlen.
  - intros j Hj. rewrite Hlen in Hj.
    rewrite (nth_zip_with_lt f _ _ j dl dk) by lia.
    rewrite (nth_map_lt _ _ j 0%nat) by (rewrite length_seq; lia).
    rewrite seq_nth by lia. reflexivity.
Qed.

Lemma map_ext_Forall {A B} (f g : A -> B) l :
  Forall (fun x => f x = g x) l -> map f l = map g l.
Proof. induction 1; cbn; congruence. Qed.

Lemma Forall_seq (P : nat -> Prop) n :
  (forall j, (j < n)%nat -> P j) -> Forall P (seq 0 n).
Proof.
  intros H. apply List.Forall_forall. intros j Hj.
  apply in_seq in Hj. apply H. lia.
Qed.

(** ** SDM: renormalisation *)

Lemma column_clipped K m j :
  rect K m -> (j < K)%nat ->
  column j (maximum_0 (inj2 m)) = inj1 (clipped_column j m).
Proof.
  unfold column, maximum_0, inj2, inj1, clipped_column.
  intros Hm Hj. rewrite !map_map.
  apply map_ext_Forall.
  eapply Forall_impl; [exact Hm|]. cbn. intros r Hr.
  rewrite map_map.
  rewrite (nth_map_lt _ _ _ 0) by lia. reflexivity.
Qed.

Lemma ncols_maximum_0_inj2 K r m :
  length r = K -> ncols (maximum_0 (inj2 (r :: m))) = K.
Proof. intros H. unfold ncols. cbn. unfold inj1. now rewrite !length_map. Qed.

Lemma norm_axis0_clipped K m :
  rect K m -> m <> [] ->
  norm_axis0 (maximum_0 (inj2 m))
  = map (fun j => Fin (sqrt (sumsq (clipped_column j m)))) (seq 0 K).
Proof.
  intros Hm Hne. destruct m as [|r m]; [contradiction|].
  unfold norm_axis0, transpose.
  rewrite (ncols_maximum_0_inj2 K) by (inversion Hm; assumption).
  rewrite map_map. apply map_ext_Forall, Forall_seq. intros j Hj.
  rewrite (column_clipped K) by assumption.
  apply linalg_norm_fin.
Qed.

Lemma normalise_closed K m :
  rect K m ->
  bcast2 ndiv (maximum_0 (inj2 m)) [norm_axis0 (maximum_0 (inj2 m))]
  = sdm_keys_closed K m.
Proof.
  intros Hm. unfold bcast2. rewrite bcast_singleton_r.
  destruct m as [|r0 m0]; [reflexivity|].
  rewrite (norm_axis0_clipped K) by (assumption || discriminate).
  set (m := r0 :: m0) in *.
  unfold sdm_keys_closed, maximum_0, inj2. rewrite !map_map.
  apply map_ext_Forall.
  eapply Forall_impl; [exact Hm|]. cbn beta. intros r Hr.
  rewrite bcast_same_length
    by (unfold inj1; rewrite !length_map, length_seq; exact Hr).
  rewrite (zip_with_map_seq _ _ _ K NaN NaN)
    by (unfold inj1; rewrite ?length_map, ?length_seq; auto).
  apply map_ext_Forall, Forall_seq. intros j Hj.
  unfold sdm_key_entry, inj1. rewrite map_map.
  rewrite (nth_map_lt _ r j 0) by lia.
  rewrite (nth_map_lt _ (seq 0 K) j 0%nat) by (rewrite length_seq; lia).
  rewrite seq_nth by lia. reflexivity.
Qed.

Lemma maximum_0_inj2 m :
  maximum_0 (inj2 m) = inj2 (map (map (fun x => Rmax x 0)) m).
Proof.
  unfold maximum_0, inj2, inj1. rewrite !map_map.
  apply map_ext. intros r. rewrite !map_map. reflexivity.
Qed.

(** What [sdm_update] returns on real matrices. *)
Lemma sdm_update_closed K (params : gmap string array2) keys values :
  rect K keys ->
  params !! "sdm_keys" = Some (inj2 keys) ->
  params !! "sdm_values" = Some (inj2 values) ->
  sdm_update params
  = Ok (sdm_keys_closed K keys, inj2 (map (map (fun x => Rmax x 0)) values)).
Proof.
  intros Hk Hkeys Hvalues. unfold sdm_update, getitem.
  rewrite Hkeys, Hvalues. cbn.
  rewrite (normalise_closed K) by assumption.
  now rewrite maximum_0_inj2.
Qed.

Lemma sumsq_scale (s : R) (c : list R) :
  s <> 0 -> sumsq (map (fun a => a / s) c) = sumsq c / (s * s).
Proof.
  intros Hs. induction c as [|a c IH]; cbn [map].
  - unfold sumsq. cbn. field. assumption.
  - rewrite !sumsq_cons, IH. field. assumption.
Qed.

Lemma sumsq_zero_elem v x : sumsq v = 0 -> In x v -> x = 0.
Proof.
  intros Hz Hin. pose proof (sumsq_ge_elem v x Hin). nra.
Qed.

Lemma clipped_column_pos j m :
  Exists (fun r => 0 < nth j r 0) m <-> 0 < sumsq (clipped_column j m).
Proof.
  split.
  - intros H. apply List.Exists_exists in H as (r & Hin & Hpos).
    assert (Hc : In (Rmax (nth j r 0) 0) (clipped_column j m)).
    { unfold clipped_column. apply in_map_iff. eauto. }
    apply sumsq_ge_elem in Hc.
    rewrite Rmax_left in Hc by lra. nra.
  - intros H. induction m as [|r m IH].
    + unfold clipped_column, sumsq in H. cbn in H. lra.
    + unfold clipped_column in H. cbn [map] in H. rewrite sumsq_cons in H.
      destruct (Rlt_dec 0 (nth j r 0)) as [Hp|Hn].
      * now apply Exists_cons_hd.
      * apply Exists_cons_tl, IH.
        rewrite Rmax_right in H by lra. unfold clipped_column. lra.
Qed.

Lemma column_closed K m j :
  (j < K)%nat ->
  column j (sdm_keys_closed K m) = map (fun r => sdm_key_entry m r j) m.
Proof.
  intros Hj. unfold column, sdm_keys_closed. rewrite map_map.
  apply map_ext. intros r.
  rewrite (nth_map_lt _ (seq 0 K) j 0%nat) by (rewrite length_seq; lia).
  now rewrite seq_nth by lia.
Qed.

(** A column with a positive entry: its entries are divided by the
    positive norm of the clipped column. *)
Lemma key_entry_regular m r j :
  0 < sumsq (clipped_column j m) ->
  sdm_key_entry m r j
  = Fin (Rmax (nth j r 0) 0 / sqrt (sumsq (clipped_column j m))).
Proof.
  intros Hs. unfold sdm_key_entry. apply ndiv_fin.
  apply sqrt_lt_R0 in Hs. lra.
Qed.

(** A column without a positive entry: [0 / 0]. *)
Lemma key_entry_degenerate m r j :
  In r m -> ~ 0 < sumsq (clipped_column j m) -> sdm_key_entry m r j = NaN.
Proof.
  intros Hin Hs.
  assert (Hz : sumsq (clipped_column j m) = 0).
  { pose proof (sumsq_nonneg (clipped_column j m)). lra. }
  unfold sdm_key_entry. rewrite Hz, sqrt_0.
  rewrite (sumsq_zero_elem (clipped_column j m) (Rmax (nth j r 0) 0) Hz).
  - apply ndiv_zero_zero.
  - unfold clipped_column. apply in_map_iff. eauto.
Qed.

Lemma column_regular K m j :
  (j < K)%nat -> 0 < sumsq (clipped_column j m) ->
  column j (sdm_keys_closed K m)
  = inj1 (map (fun a => a / sqrt (sumsq (clipped_column j m))) (clipped_column j m)).
Proof.
  intros Hj Hs. rewrite column_closed by assumption.
  unfold inj1, clipped_column. rewrite !map_map.
  apply map_ext. intros r. now apply key_entry_regular.
Qed.

Lemma column_regular_norm K m j :
  (j < K)%nat -> 0 < sumsq (clipped_column j m) ->
  linalg_norm (column j (sdm_keys_closed K m)) = Fin 1.
Proof.
  intros Hj Hs. rewrite column_regular by assumption.
  rewrite linalg_norm_fin. f_equal.
  pose proof (sqrt_lt_R0 _ Hs) as Hq.
  rewrite sumsq_scale by lra.
  rewrite sqrt_sqrt by lra.
  replace (_ / _) with 1 by (field; lra).
  apply sqrt_1.
Qed.

Lemma column_degenerate K m j :
  (j < K)%nat -> ~ 0 < sumsq (clipped_column j m) ->
  Forall (fun x => x = NaN) (column j (sdm_keys_closed K m)).
Proof.
  intros Hj Hs. rewrite column_closed by assumption.
  apply List.Forall_forall. intros x Hx.
  apply in_map_iff in Hx as (r & <- & Hin).
  now apply key_entry_degenerate.
Qed.

Lemma linalg_norm_nan_head v : linalg_norm (NaN :: v) = NaN.
Proof.
  unfold linalg_norm, jnp_sum. cbn [map foldr nsquare nmul].
  reflexivity.
Qed.

Lemma column_degenerate_norm K m j :
  (j < K)%nat -> m <> [] -> ~ 0 < sumsq (clipped_column j m) ->
  linalg_norm (column j (sdm_keys_closed K m)) = NaN.
Proof.
  intros Hj Hne Hs. rewrite column_closed by assumption.
  destruct m as [|r m]; [contradiction|]. cbn [map].
  rewrite key_entry_degenerate by (assumption || now left).
  apply linalg_norm_nan_head.
Qed.




(** C2 (as amended). On real key and value matrices [sdm_update] returns
    keys in which every column that had a positive entry is non-negative
    with L2 norm 1, and every other column consists of [nan] (not of
    zeros); every returned value is non-negative. *)
Theorem sdm_update_invariant (params : gmap string array2)
    (keys values : list (list R)) (K : nat) :
  rect K keys ->
  params !! "sdm_keys" = Some (inj2 keys) ->
  params !! "sdm_values" = Some (inj2 values) ->
  exists keys' values',
    sdm_update params = Ok (keys', values')
    /\ (forall j, (j < K)%nat ->
          Exists (fun r => 0 < nth j r 0) keys ->
          (exists c, column j keys' = inj1 c /\ Forall (fun x => 0 <= x) c)
          /\ linalg_norm (column j keys') = Fin 1)
    /\ (forall j, (j < K)%nat ->
          ~ Exists (fun r => 0 < nth j r 0) keys ->
          Forall (fun x => x = NaN) (column j keys'))
    /\ (exists v, values' = inj2 v /\ Forall (Forall (fun x => 0 <= x)) v).
Proof.
  intros Hk Hkeys Hvalues.
  eexists _, _. split; [eapply (sdm_update_closed K); eassumption|].
  split; [|split].
  - intros j Hj Hex. apply clipped_column_pos in Hex.
    split; [|now apply column_regular_norm].
    eexists. split; [now apply column_regular|].
    pose proof (sqrt_lt_R0 _ Hex) as Hq.
    apply List.Forall_forall. intros x Hx.
    apply in_map_iff in Hx as (a & <- & Ha).
    unfold clipped_column in Ha. apply in_map_iff in Ha as (r & <- & _).
    pose proof (Rmax_r (nth j r 0) 0).
    apply Rmult_le_pos; [lra|]. left. now apply Rinv_0_lt_compat.
  - intros j Hj Hex. apply column_degenerate; [assumption|].
    now rewrite <- clipped_column_pos.
  - eexists. split; [reflexivity|].
    apply List.Forall_forall. intros r Hr.
    apply in_map_iff in Hr as (r' & <- & _).
    apply List.Forall_forall. intros x Hx.
    apply in_map_iff in Hx as (x' & <- & _). apply Rmax_r.
Qed.


Lemma sdm_params_keys keys values :
  sdm_params keys values !! "sdm_keys" = Some keys.
Proof.
  unfold sdm_params. rewrite lookup_insert_ne by discriminate.
  apply lookup_insert_eq.
Qed.

Lemma sdm_params_values keys values :
  sdm_params keys values !! "sdm_values" = Some values.
Proof. unfold sdm_params. apply lookup_insert_eq. Qed.

Lemma sdm_update_invariant_witness :
  exists keys' values',
    sdm_update (sdm_params (inj2 [[3]; [4]]) (inj2 [[-1]])) = Ok (keys', values')
    /\ linalg_norm (column 0 keys') = Fin 1.
Proof.
  destruct (sdm_update_invariant
              (sdm_params (inj2 [[3]; [4]]) (inj2 [[-1]])) [[3]; [4]] [[-1]] 1)
    as (keys' & values' & Hrun & Hreg & _).
  - repeat constructor.
  - apply sdm_params_keys.
  - apply sdm_params_values.
  - exists keys', values'. split; [exact Hrun|].
    apply Hreg; [lia|]. apply Exists_cons_hd. cbn. lra.
Defined.

(** C2, the degenerate case: an all-zero key column comes back as a
    column of [nan], which neither has norm 1 nor is all-zero. *)
Lemma sdm_update_zero_column :
  exists keys' values',
    sdm_update (sdm_params (inj2 [[0; 3]; [0; 4]]) (inj2 [[1]])) = Ok (keys', values')
    /\ column 0 keys' = [NaN; NaN]
    /\ linalg_norm (column 0 keys') <> Fin 1
    /\ column 0 keys' <> inj1 [0; 0].
Proof.
  eexists _, _. split.
  - apply (sdm_update_closed 2 _ [[0; 3]; [0; 4]] [[1]]).
    + repeat constructor.
    + apply sdm_params_keys.
    + apply sdm_params_values.
  - assert (Hdeg : ~ 0 < sumsq (clipped_column 0 [[0; 3]; [0; 4]])).
    { rewrite <- clipped_column_pos. intros H.
      apply List.Exists_exists in H as (r & Hin & Hpos).
      cbn in Hin. destruct Hin as [<-|[<-|[]]]; cbn in Hpos; lra. }
    assert (Hcol : column 0 (sdm_keys_closed 2 [[0; 3]; [0; 4]]) = [NaN; NaN]).
    { rewrite column_closed by lia. cbn [map].
      rewrite !key_entry_degenerate; try assumption; cbn; auto. }
    rewrite Hcol. repeat split; [|discriminate].
    rewrite linalg_norm_nan_head. discriminate.
Qed.


(** ** Parameter trees *)

Lemma zip_with_left {A B} (f : A -> B -> A) (P : A -> B -> Prop) l k :
  Forall2 P l k -> (forall x y, P x y -> f x y = x) -> zip_with f l k = l.
Proof.
  intros H Hf. induction H as [|x y l k Hxy _ IH]; cbn; [reflexivity|].
  now rewrite Hf, IH.
Qed.



Lemma tree_map2_ok f (p q : gmap string array2) :
  dom p = dom q ->
  tree_map2 f p q = Ok (map_zip_with (zip_with (zip_with f)) p q).
Proof. intros H. unfold tree_map2. now rewrite decide_True. Qed.

(** A tree map that returns its first argument on the entries at hand. *)
Lemma tree_map2_left f (P : num -> num -> Prop) (p q : gmap string array2) :
  dom p = dom q ->
  (forall k a b, p !! k = Some a -> q !! k = Some b ->
                 Forall2 (Forall2 P) a b) ->
  (forall x y, P x y -> f x y = x) ->
  tree_map2 f p q = Ok p.
Proof.
  intros Hdom Hsh Hf. rewrite tree_map2_ok by assumption. f_equal.
  apply map_eq. intros k. rewrite map_lookup_zip_with.
  destruct (p !! k) as [a|] eqn:Ea; [|reflexivity]. cbn.
  assert (Hq : is_Some (q !! k)).
  { apply elem_of_dom. rewrite <- Hdom. apply elem_of_dom. eauto. }
  destruct Hq as [b Eb]. rewrite Eb. cbn. f_equal.
  apply (zip_with_left _ (Forall2 P)); [eauto|].
  intros r s Hrs. now apply (zip_with_left _ P).
Qed.






Lemma same_shape_refl a : same_shape a a.
Proof. induction a; constructor; auto. Qed.

Lemma real_array_diag a :
  real_array a -> Forall2 (Forall2 (fun x y => is_fin x /\ x = y)) a a.
Proof.
  intros Ha. induction Ha as [|r a Hr _ IH]; constructor; [|assumption].
  induction Hr; constructor; auto.
Qed.

(** Interpolating a real tree with itself returns it, whatever the
    step size. *)
Lemma incremental_update_same (p : gmap string array2) (step_size : R) :
  real_tree p -> incremental_update p p step_size = Ok p.
Proof.
  intros Hp. unfold incremental_update.
  apply (tree_map2_left _ (fun x y => is_fin x /\ x = y)); [reflexivity| |].
  - intros k a b Ea Eb. assert (b = a) as -> by congruence.
    apply real_array_diag. exact (Hp k a Ea).
  - intros [a| | |] y [[] <-]. cbn. f_equal. lra.
Qed.

(** ** The result monad *)

Lemma bind_Ok_inv {A B} (m : result A) (f : A -> result B) (b : B) :
  m ≫= f = Ok b -> exists a, m = Ok a /\ f a = Ok b.
Proof. destruct m as [a|e]; cbn; [eauto|discriminate]. Qed.

Lemma bind_Ok {A B} (m : result A) (f : A -> result B) (a : A) :
  m = Ok a -> m ≫= f = f a.
Proof. now intros ->. Qed.

Lemma bind_Raise {A B} (m : result A) (f : A -> result B) (e : exn) :
  m = Raise e -> m ≫= f = Raise e.
Proof. now intros ->. Qed.

(** ** The jitted update *)

Section UpdateFacts.

Context {OptState : Type}.
Variable apply_fn : q_network_t -> gmap string array2 -> array2 -> array2.
Variable grad : (gmap string array2 -> num) -> gmap string array2 -> gmap string array2.
Variable adam_update :
  gmap string array2 -> OptState -> gmap string array2 -> gmap string array2 * OptState.

Implicit Types (q_state qs : @TrainState OptState).

Lemma dsom_block_inv args net qs obs qs0 net0 :
  dsom_block args net qs obs = Ok (qs0, net0) ->
  (exists live, qs0 = replace_params qs live)
  /\ (architecture args <> "DSOM" -> qs0 = qs /\ net0 = net).
Proof.
  unfold dsom_block. destruct (String.eqb_spec (architecture args) "DSOM") as [E|E].
  - destruct net as [|self|]; try discriminate.
    destruct (dsom_update self (params qs) obs "avg") as [self' [cb|e]];
      cbn; [|discriminate].
    intros [= <- <-]. split; [eauto|]. intros H. contradiction.
  - intros [= <- <-]. split; [|auto].
    exists (params qs). now destruct qs.
Qed.

Lemma apply_gradients_inv qs grads qs1 :
  apply_gradients adam_update qs grads = Ok qs1 ->
  apply_updates (params qs) (fst (adam_update grads (opt_state qs) (params qs)))
  = Ok (params qs1)
  /\ opt_state qs1 = snd (adam_update grads (opt_state qs) (params qs))
  /\ target_params qs1 = target_params qs
  /\ step qs1 = (step qs + 1)%Z.
Proof.
  unfold apply_gradients.
  destruct (adam_update grads (opt_state qs) (params qs)) as [updates opt'].
  intros H. apply bind_Ok_inv in H as (p & Hp & [= <-]).
  cbn. auto.
Qed.

Lemma sdm_block_inv args qs qs' :
  sdm_block args qs = Ok qs' ->
  (exists p, qs' = replace_params qs p)
  /\ (architecture args <> "SDM" -> qs' = qs).
Proof.
  unfold sdm_block. destruct (String.eqb_spec (architecture args) "SDM") as [E|E].
  - intros H. apply bind_Ok_inv in H as ([k v] & _ & [= <-]).
    split; [eauto|]. intros H. contradiction.
  - intros [= <-]. split; [|auto]. exists (params qs). now destruct qs.
Qed.

(** The stages of a successful [update]. *)
Lemma update_inv args net qs obs actions next_obs rewards dones
    loss q_pred qs' net' :
  update apply_fn grad adam_update args net qs obs actions next_obs rewards dones
  = Ok (loss, q_pred, qs', net') ->
  exists qs0 q_next qs1,
    dsom_block args net qs obs = Ok (qs0, net')
    /\ mapM jnp_max (apply_fn net' (target_params qs0) next_obs) = Ok q_next
    /\ mse_loss apply_fn net' obs actions (td_target args rewards dones q_next)
         (params qs0) = (loss, q_pred)
    /\ apply_gradients adam_update qs0
         (grad (fun p => fst (mse_loss apply_fn net' obs actions
                                (td_target args rewards dones q_next) p))
               (params qs0)) = Ok qs1
    /\ sdm_block args qs1 = Ok qs'.
Proof.
  unfold update. intros H.
  apply bind_Ok_inv in H as ([qs0 net0] & Hpre & H).
  apply bind_Ok_inv in H as (q_next & Hmax & H).
  destruct (mse_loss apply_fn net0 obs actions _ (params qs0))
    as [loss0 q_pred0] eqn:Eloss.
  apply bind_Ok_inv in H as (qs1 & Hgrad & H).
  apply bind_Ok_inv in H as (qs2 & Hpost & [= <- <- <- <-]).
  exists qs0, q_next, qs1. auto.
Qed.

Lemma update_target args net qs obs actions next_obs rewards dones
    loss q_pred qs' net' :
  update apply_fn grad adam_update args net qs obs actions next_obs rewards dones
  = Ok (loss, q_pred, qs', net') ->
  target_params qs' = target_params qs /\ step qs' = (step qs + 1)%Z.
Proof.
  intros H. apply update_inv in H as (qs0 & q_next & qs1 & Hpre & _ & _ & Hg & Hpost).
  apply dsom_block_inv in Hpre as [[live ->] _].
  apply apply_gradients_inv in Hg as (_ & _ & Ht & Hs).
  apply sdm_block_inv in Hpost as [[p ->] _].
  cbn in *. auto.
Qed.

End UpdateFacts.

(** ** The training loop *)

Section LoopFacts.

Context {OptState World : Type}.
Variable apply_fn : q_network_t -> gmap string array2 -> array2 -> array2.
Variable grad : (gmap string array2 -> num) -> gmap string array2 -> gmap string array2.
Variable adam_update :
  gmap string array2 -> OptState -> gmap string array2 -> gmap string array2 * OptState.
Variable init : q_network_t -> gmap string array2.
Variable adam_init : gmap string array2 -> OptState.
Variable interact : World -> @TrainState OptState -> q_network_t -> R -> World * nat.
Variable rb_sample : World -> Z -> Batch * World.

Local Abbreviation setup' := (setup init adam_init).
Local Abbreviation loop_body' :=
  (loop_body apply_fn grad adam_update interact rb_sample).
Local Abbreviation run_loop' :=
  (run_loop apply_fn grad adam_update interact rb_sample).
Local Abbreviation main' :=
  (main apply_fn grad adam_update init adam_init interact rb_sample).

Implicit Types (st : @LoopState OptState World).


Lemma select_network_Some args :
  supported_architecture (architecture args) ->
  exists net, select_network args = Some net.
Proof.
  unfold select_network. intros [E|[E|E]]; rewrite E; cbn; eauto.
Qed.


Lemma setup_Ok args (w : World) net :
  select_network args = Some net ->
  exists target,
    incremental_update (init net) (init net) 1 = Ok target
    /\ setup' args w
       = Ok {| world := w;
               q_state := {| step := 0; params := init net;
                             target_params := target;
                             opt_state := adam_init (init net) |};
               q_network := net; q_network_k := None; num_episodes := 0 |}.
Proof.
  intros H. unfold setup. rewrite H. cbn.
  unfold incremental_update. rewrite tree_map2_ok by reflexivity.
  eexists. split; reflexivity.
Qed.



Lemma range_succ (n : nat) :
  range (Z.of_nat (S n)) = range (Z.of_nat n) ++ [Z.of_nat n].
Proof.
  unfold range. rewrite !Nat2Z.id, seq_S, map_app. reflexivity.
Qed.

Lemma range_pos (n : Z) :
  (0 < n)%Z -> exists rest, range n = 0%Z :: rest.
Proof.
  intros H. unfold range.
  destruct (Z.to_nat n) as [|k] eqn:E; [lia|]. cbn. eauto.
Qed.

Lemma run_loop_app args l1 l2 st :
  run_loop' args (l1 ++ l2) st
  = run_loop' args l1 st ≫= run_loop' args l2.
Proof.
  revert st. induction l1 as [|t l1 IH]; intros st; cbn; [reflexivity|].
  destruct (loop_body' args t st) as [st1|e]; cbn; [apply IH|reflexivity].
Qed.

(** Before [learning_starts] an iteration leaves the train state alone. *)
Lemma loop_body_warmup args t st st' :
  (t <= learning_starts args)%Z ->
  loop_body' args t st = Ok st' ->
  q_state st' = q_state st.
Proof.
  intros Ht. unfold loop_body. intros H.
  apply bind_Ok_inv in H as (eps & _ & H).
  destruct (interact _ _ _ _) as [w finished].
  replace (t >? learning_starts args)%Z with false in H by lia.
  now injection H as <-.
Qed.

Lemma run_loop_warmup args n st0 st :
  (Z.of_nat n <= learning_starts args + 1)%Z ->
  run_loop' args (range (Z.of_nat n)) st0 = Ok st ->
  q_state st = q_state st0.
Proof.
  revert st. induction n as [|n IH]; intros st Hn.
  - cbn. now intros [= <-].
  - rewrite range_succ, run_loop_app. intros H.
    apply bind_Ok_inv in H as (st1 & H1 & H2).
    cbn in H2. apply bind_Ok_inv in H2 as (st2 & H2 & [= <-]).
    apply loop_body_warmup in H2; [|lia].
    rewrite H2. apply IH; [lia|assumption].
Qed.


End LoopFacts.

(** ** DSOM: distances *)

Lemma zip_with_nsub_fin u v :
  zip_with nsub (inj1 u) (inj1 v) = inj1 (zip_with Rminus u v).
Proof.
  unfold inj1. revert v. induction u as [|a u IH]; intros [|b v]; cbn;
    try reflexivity.
  now rewrite IH.
Qed.

Lemma norm_sub_fin u v :
  length u = length v ->
  linalg_norm (bcast nsub (inj1 u) (inj1 v)) = Fin (euclid u v).
Proof.
  intros H. rewrite bcast_same_length by (unfold inj1; now rewrite !length_map).
  rewrite zip_with_nsub_fin. apply linalg_norm_fin.
Qed.

(** The distance table of two real matrices with rows of one length. *)
Lemma norm_diff_fin K a b :
  rect K a -> rect K b ->
  norm_last3 (bcast3 nsub (expand_dims_1 (inj2 a)) (expand_dims_0 (inj2 b)))
  = inj2 (map (fun u => map (euclid u) b) a).
Proof.
  intros Ha Hb. unfold bcast3, expand_dims_0, expand_dims_1, norm_last3.
  rewrite bcast_singleton_r. unfold inj2. rewrite !map_map.
  apply map_ext_Forall. eapply Forall_impl; [exact Ha|]. cbn beta.
  intros u Hu. rewrite bcast_singleton_l. unfold inj1 at 3.
  rewrite !map_map.
  apply map_ext_Forall. eapply Forall_impl; [exact Hb|]. cbn beta.
  intros v Hv. apply norm_sub_fin. congruence.
Qed.

Lemma ravel_inj2 m : ravel (inj2 m) = inj1 (concat m).
Proof.
  unfold ravel, inj2, inj1. induction m as [|r m IH]; cbn; [reflexivity|].
  now rewrite IH, map_app.
Qed.

Lemma foldl_nmaximum_fin x t :
  foldl nmaximum (Fin x) (inj1 t) = Fin (Rlist_max x t).
Proof.
  unfold Rlist_max, inj1. revert x. induction t as [|y t IH]; intros x; cbn;
    [reflexivity|apply IH].
Qed.

Lemma jnp_max_fin x t : jnp_max (inj1 (x :: t)) = Ok (Fin (Rlist_max x t)).
Proof. cbn. f_equal. apply foldl_nmaximum_fin. Qed.

Lemma Rlist_max_ge_init x t : x <= Rlist_max x t.
Proof.
  unfold Rlist_max. revert x. induction t as [|y t IH]; intros x; cbn; [lra|].
  eapply Rle_trans; [apply Rmax_l|apply IH].
Qed.

Lemma Rlist_max_ge x t y : In y (x :: t) -> y <= Rlist_max x t.
Proof.
  unfold Rlist_max. revert x. induction t as [|z t IH]; intros x.
  - intros [->|[]]. cbn. lra.
  - intros [->|[->|Hin]]; cbn.
    + eapply Rle_trans; [apply Rmax_l|apply Rlist_max_ge_init].
    + eapply Rle_trans; [apply Rmax_r|apply Rlist_max_ge_init].
    + apply IH. now right.
Qed.

Lemma Rlist_max_In x t : In (Rlist_max x t) (x :: t).
Proof.
  unfold Rlist_max. revert x. induction t as [|z t IH]; intros x; cbn.
  - now left.
  - destruct (IH (Rmax x z)) as [E|Hin]; [|now right; right].
    cbn in E. rewrite <- E.
    unfold Rmax. destruct (Rle_dec x z); [right; now left|now left].
Qed.

Lemma pairwise_dists_nonempty c :
  c <> [] -> pairwise_dists c <> [].
Proof.
  destruct c as [|u c]; [contradiction|]. intros _. discriminate.
Qed.

(** The largest pairwise distance bounds every pairwise distance and is
    one of them. *)
Lemma largest_pairwise_spec c :
  c <> [] ->
  (forall u v, In u c -> In v c -> euclid u v <= largest_pairwise c)
  /\ exists u v, In u c /\ In v c /\ largest_pairwise c = euclid u v.
Proof.
  intros Hc. unfold largest_pairwise.
  destruct (pairwise_dists c) as [|x t] eqn:E;
    [now apply pairwise_dists_nonempty in E|].
  assert (Hin : forall y, In y (x :: t) <->
                          exists u v, In u c /\ In v c /\ y = euclid u v).
  { intros y. rewrite <- E. unfold pairwise_dists.
    rewrite in_concat. split.
    - intros (l & Hl & Hy). apply in_map_iff in Hl as (u & <- & Hu).
      apply in_map_iff in Hy as (v & <- & Hv). eauto.
    - intros (u & v & Hu & Hv & ->). exists (map (euclid u) c). split.
      + apply in_map_iff. eauto.
      + apply in_map_iff. eauto. }
  split.
  - intros u v Hu Hv. apply Rlist_max_ge, Hin. eauto.
  - apply Hin, Rlist_max_In.
Qed.

Lemma current_max_dist_fin K c :
  rect K c -> c <> [] ->
  jnp_max (ravel (norm_last3
                    (bcast3 nsub (expand_dims_1 (inj2 c)) (expand_dims_0 (inj2 c)))))
  = Ok (Fin (largest_pairwise c)).
Proof.
  intros Hc Hne. rewrite (norm_diff_fin K) by assumption.
  rewrite ravel_inj2. fold (pairwise_dists c). unfold largest_pairwise.
  destruct (pairwise_dists c) as [|x t] eqn:E;
    [now apply pairwise_dists_nonempty in E|].
  apply jnp_max_fin.
Qed.

(** ** DSOM: the running maximum *)

(** The instance that [dsom_update] leaves behind. *)
Lemma dsom_update_self self params obs mode :
  fst (dsom_update self params obs mode)
  = match getitem params "som_codebook_vecs", getitem params "som_addresses" with
    | Ok cb_vecs, Ok _ =>
        match jnp_max (ravel (norm_last3
                 (bcast3 nsub (expand_dims_1 cb_vecs) (expand_dims_0 cb_vecs)))) with
        | Ok current_max_dist =>
            set_max_dist self (nmaximum current_max_dist (max_dist self))
        | Raise _ => self
        end
    | _, _ => self
    end.
Proof.
  unfold dsom_update.
  destruct (getitem params "som_codebook_vecs") as [cb|e]; [|reflexivity].
  destruct (getitem params "som_addresses") as [addr|e]; [|reflexivity].
  cbv zeta.
  destruct (jnp_max _) as [cur|e]; [|reflexivity].
  destruct (String.eqb mode "avg"); [reflexivity|].
  destruct (String.eqb mode "sum"); reflexivity.
Qed.





(** A codebook that holds [nan] in its first entry: the distance table
    starts with [nan] and [max_dist] becomes [nan]. *)
Lemma foldl_nmaximum_nan t : foldl nmaximum NaN t = NaN.
Proof. induction t as [|y t IH]; [reflexivity|exact IH]. Qed.

Lemma bcast_nsub_nan_head r s :
  exists t, bcast nsub (NaN :: r) (NaN :: s) = NaN :: t.
Proof.
  destruct r as [|x r], s as [|y s]; cbn; eauto.
Qed.

Lemma dsom_update_max_dist_nan self (params : gmap string array2) obs mode
    r cb addr :
  params !! "som_codebook_vecs" = Some ((NaN :: r) :: cb) ->
  params !! "som_addresses" = Some addr ->
  max_dist (fst (dsom_update self params obs mode)) = NaN.
Proof.
  intros Hcb Haddr. rewrite dsom_update_self. unfold getitem.
  rewrite Hcb, Haddr.
  unfold bcast3, expand_dims_0. rewrite bcast_singleton_r.
  cbn [expand_dims_1 map]. rewrite bcast_singleton_l.
  cbn [map norm_last3 ravel concat].
  destruct (bcast_nsub_nan_head r r) as [t ->].
  rewrite linalg_norm_nan_head. cbn [app jnp_max].
  now rewrite foldl_nmaximum_nan.
Qed.


(** ** DSOM: the update, tensor by tensor *)

Lemma map_as_seq {A B} (f : A -> B) (l : list A) (d : A) :
  map f l = map (fun i => f (nth i l d)) (seq 0 (length l)).
Proof.
  apply (nth_ext _ _ (f d) (f d)).
  - now rewrite !length_map, length_seq.
  - intros i Hi. rewrite length_map in Hi.
    rewrite (nth_map_lt _ l i d) by assumption.
    rewrite (nth_map_lt _ (seq 0 (length l)) i 0%nat) by now rewrite length_seq.
    now rewrite seq_nth.
Qed.

Lemma zip_with_map_same {A B C D} (f : B -> C -> D) (g : A -> B) (k : A -> C) l :
  zip_with f (map g l) (map k l) = map (fun x => f (g x) (k x)) l.
Proof. induction l as [|x l IH]; cbn; [reflexivity|now rewrite IH]. Qed.

(** [diff]: the observation minus every prototype. *)
Lemma diff_fin K obs c :
  rect K obs -> rect K c ->
  bcast3 nsub (expand_dims_1 (inj2 obs)) (expand_dims_0 (inj2 c))
  = map (fun o => map (fun p => inj1 (zip_with Rminus o p)) c) obs.
Proof.
  intros Ho Hc. unfold bcast3, expand_dims_0, expand_dims_1.
  rewrite bcast_singleton_r. unfold inj2. rewrite !map_map.
  apply map_ext_Forall. eapply Forall_impl; [exact Ho|]. cbn beta.
  intros o Hlo. rewrite bcast_singleton_l. rewrite !map_map.
  apply map_ext_Forall. eapply Forall_impl; [exact Hc|]. cbn beta.
  intros p Hp.
  rewrite bcast_same_length by (unfold inj1; rewrite !length_map; congruence).
  apply zip_with_nsub_fin.
Qed.

Lemma take_clamp_singleton {A} (d x : A) i : take_clamp d [x] i = x.
Proof. unfold take_clamp. cbn. now rewrite Nat.min_0_r. Qed.

Lemma take_clamp_inj2 (m : list (list R)) i :
  take_clamp [] (inj2 m) i = inj1 (take_clamp [] m i).
Proof.
  unfold take_clamp, inj2. rewrite length_map.
  change (@nil num) with (inj1 []). apply map_nth.
Qed.

Lemma bcast_map_same {A B C D} (f : B -> C -> D) (g : A -> B) (k : A -> C) l :
  bcast f (map g l) (map k l) = map (fun x => f (g x) (k x)) l.
Proof.
  rewrite bcast_same_length by now rewrite !length_map.
  apply zip_with_map_same.
Qed.

Lemma map_ext_table {A B C} (f g : A -> B -> C) (l : list A) (k : list B) :
  (forall x y, In x l -> In y k -> f x y = g x y) ->
  map (fun x => map (f x) k) l = map (fun x => map (g x) k) l.
Proof.
  intros H. apply map_ext_in. intros x Hx. apply map_ext_in. intros y Hy.
  now apply H.
Qed.

(** Tables over the batch and the prototypes combine entry by entry. *)
Lemma bcast2_tables {A B} (f : num -> num -> num) (g h : A -> B -> num)
    (l : list A) (k : list B) :
  bcast2 f (map (fun x => map (g x) k) l) (map (fun x => map (h x) k) l)
  = map (fun x => map (fun y => f (g x y) (h x y)) k) l.
Proof.
  unfold bcast2. rewrite bcast_map_same.
  apply map_ext. intros x. apply bcast_map_same.
Qed.

Lemma bcast3_tables_single {A B} (f : num -> num -> num) (g h : A -> B -> num)
    (l : list A) (k : list B) :
  bcast3 f (map (fun x => map (fun y => [g x y]) k) l)
           (map (fun x => map (fun y => [h x y]) k) l)
  = map (fun x => map (fun y => [f (g x y) (h x y)]) k) l.
Proof.
  unfold bcast3. rewrite bcast_map_same.
  apply map_ext. intros x. rewrite bcast_map_same. reflexivity.
Qed.

Lemma bcast3_tables_row {A B} (f : num -> num -> num) (g : A -> B -> num)
    (r : A -> B -> array1) (l : list A) (k : list B) :
  bcast3 f (map (fun x => map (fun y => [g x y]) k) l)
           (map (fun x => map (r x) k) l)
  = map (fun x => map (fun y => map (f (g x y)) (r x y)) k) l.
Proof.
  unfold bcast3. rewrite bcast_map_same.
  apply map_ext. intros x. rewrite bcast_map_same. reflexivity.
Qed.

Section DsomStages.

Variables (lr0 e maxd : R) (a c obs : list (list R)) (D Aw : nat).
Hypothesis Hc : rect D c.
Hypothesis Hobs : rect D obs.
Hypothesis Ha : rect Aw a.
Hypothesis Hlen : length a = length c.
Hypothesis Hne : c <> [].
Hypothesis Hmaxd : maxd <> 0.

Local Abbreviation N := (length c).
Local Abbreviation dist0 := (inj2 (map (fun o => map (euclid o) c) obs)).

Lemma stage_dist :
  norm_last3 (map (fun o => map (fun p => inj1 (zip_with Rminus o p)) c) obs)
  = dist0.
Proof.
  unfold norm_last3, inj2. rewrite !map_map.
  apply map_ext. intros o. unfold inj1 at 2. rewrite !map_map.
  apply map_ext. intros p. apply linalg_norm_fin.
Qed.

Lemma stage_winner_idx : map argmin dist0 = map (winner c) obs.
Proof. unfold inj2. rewrite !map_map. reflexivity. Qed.

Lemma stage_winner_cb_vecs (x : array2) (w : list R -> nat) :
  map (take_clamp [] (expand_dims_0 x)) (map w obs) = map (fun _ => x) obs.
Proof.
  rewrite map_map. apply map_ext. intros o. apply take_clamp_singleton.
Qed.

Lemma stage_diff_again :
  bcast3 nsub (expand_dims_1 (inj2 obs)) (map (fun _ => inj2 c) obs)
  = map (fun o => map (fun p => inj1 (zip_with Rminus o p)) c) obs.
Proof.
  unfold bcast3, expand_dims_1, inj2. rewrite !map_map.
  rewrite bcast_map_same.
  apply map_ext_Forall. eapply Forall_impl; [exact Hobs|]. cbn beta.
  intros o Hlo. rewrite bcast_singleton_l, map_map.
  apply map_ext_Forall. eapply Forall_impl; [exact Hc|]. cbn beta.
  intros p Hp.
  rewrite bcast_same_length by (unfold inj1; rewrite !length_map; congruence).
  apply zip_with_nsub_fin.
Qed.

Lemma stage_diff_table :
  map (fun o => map (fun p => inj1 (zip_with Rminus o p)) c) obs
  = map (fun o => map (fun i => inj1 (zip_with Rminus o (nth i c []))) (seq 0 N)) obs.
Proof.
  apply map_ext. intros o.
  apply (map_as_seq (fun p => inj1 (zip_with Rminus o p)) c []).
Qed.

Lemma stage_dist_normed :
  map (map (fun v => ndiv v (Fin maxd))) dist0
  = map (fun o => map (fun i => Fin (euclid o (nth i c []) / maxd)) (seq 0 N)) obs.
Proof.
  unfold inj2, inj1. rewrite !map_map.
  apply map_ext. intros o. rewrite !map_map.
  rewrite (map_as_seq _ c []).
  apply map_ext. intros i. now apply ndiv_fin.
Qed.

Lemma stage_denominators :
  map (map (fun v => nmul (Fin (e ^ 2)) (nsquare (ndiv v (Fin maxd))))) dist0
  = map (fun o => map (fun i => Fin (denominator e maxd c o i)) (seq 0 N)) obs.
Proof.
  unfold inj2, inj1. rewrite !map_map.
  apply map_ext. intros o. rewrite !map_map.
  rewrite (map_as_seq _ c []).
  apply map_ext. intros i. now rewrite ndiv_fin.
Qed.

Lemma take_clamp_length w : length (take_clamp [] a w) = Aw.
Proof.
  unfold take_clamp.
  assert (Hlt : (Nat.min w (length a - 1) < length a)%nat).
  { destruct c; [contradiction|]. cbn in Hlen. lia. }
  pose proof (nth_In a [] Hlt) as Hin.
  unfold rect in Ha. rewrite List.Forall_forall in Ha. now apply Ha.
Qed.

Lemma stage_numerators :
  map (map nneg)
    (map (map jnp_sum)
       (map (map (map nsquare))
          (bcast3 nsub (expand_dims_0 (inj2 a))
             (expand_dims_1
                (map (take_clamp [] (inj2 a)) (map (winner c) obs))))))
  = map (fun o => map (fun i => Fin (- numerator a c o i)) (seq 0 N)) obs.
Proof.
  unfold bcast3, expand_dims_0, expand_dims_1.
  rewrite bcast_singleton_l, !map_map.
  apply map_ext. intros o.
  rewrite bcast_singleton_r, take_clamp_inj2.
  unfold inj2. rewrite !map_map.
  rewrite (map_as_seq _ a []), Hlen.
  apply map_ext_Forall, Forall_seq. intros i Hi.
  assert (Hai : length (nth i a []) = Aw).
  { assert (Hin : In (nth i a []) a) by (apply nth_In; lia).
    unfold rect in Ha. rewrite List.Forall_forall in Ha. now apply Ha. }
  rewrite bcast_same_length
    by (unfold inj1; rewrite !length_map, take_clamp_length; exact Hai).
  rewrite zip_with_nsub_fin, map_nsquare_fin, jnp_sum_fin.
  reflexivity.
Qed.

Lemma stage_h :
  map (map nexp)
    (bcast2 ndiv
       (map (fun o => map (fun i => Fin (- numerator a c o i)) (seq 0 N)) obs)
       (map (fun o => map (fun i => Fin (denominator e maxd c o i)) (seq 0 N)) obs))
  = map (fun o => map (weight e maxd a c o) (seq 0 N)) obs.
Proof.
  rewrite bcast2_tables, map_map.
  apply map_ext. intros o. rewrite map_map. reflexivity.
Qed.

Lemma stage_delta_w_batch :
  bcast3 nmul
    (bcast3 nmul
       (map (map (map (nmul (Fin lr0))))
          (expand_dims_last
             (map (fun o => map (fun i => Fin (euclid o (nth i c []) / maxd))
                              (seq 0 N)) obs)))
       (expand_dims_last
          (map (fun o => map (weight e maxd a c o) (seq 0 N)) obs)))
    (map (fun o => map (fun i => inj1 (zip_with Rminus o (nth i c []))) (seq 0 N)) obs)
  = batch_delta lr0 e maxd a c obs.
Proof.
  unfold expand_dims_last. rewrite !map_map.
  assert (E1 :
    map (fun x => map (map (nmul (Fin lr0)))
                   (map (fun x0 => [x0])
                      (map (fun i => Fin (euclid x (nth i c []) / maxd)) (seq 0 N))))
        obs
    = map (fun o => map (fun i => [Fin (lr0 * (euclid o (nth i c []) / maxd))])
                      (seq 0 N)) obs).
  { apply map_ext. intros o. rewrite !map_map. reflexivity. }
  rewrite E1.
  assert (E2 :
    map (fun x => map (fun x0 => [x0]) (map (weight e maxd a c x) (seq 0 N))) obs
    = map (fun o => map (fun i => [weight e maxd a c o i]) (seq 0 N)) obs).
  { apply map_ext. intros o. now rewrite map_map. }
  rewrite E2.
  rewrite (bcast3_tables_single nmul).
  rewrite (bcast3_tables_row nmul).
  unfold batch_delta, item_delta.
  apply map_ext. intros o. apply map_ext. intros i.
  unfold inj1. now rewrite map_map.
Qed.

End DsomStages.

Lemma nrows_inj2 m : nrows (inj2 m) = nrows m.
Proof. unfold nrows, inj2. apply length_map. Qed.

Lemma ncols_inj2 m : ncols (inj2 m) = ncols m.
Proof. unfold ncols. destruct m; cbn; [reflexivity|]. unfold inj1. apply length_map. Qed.

Lemma ncols_rect {A} K (m : list (list A)) : rect K m -> m <> [] -> ncols m = K.
Proof. intros H Hne. destruct m; [contradiction|]. now inversion H. Qed.

Lemma length_batch_delta lr0 e maxd a c obs :
  length (batch_delta lr0 e maxd a c obs) = length obs.
Proof. unfold batch_delta. apply length_map. Qed.

(** [dsom_update] on real arrays, in closed form. *)
Lemma dsom_update_reading self (params : gmap string array2) obs mode c a D Aw m0 :
  rect D c -> c <> [] -> rect D obs -> rect Aw a -> length a = length c ->
  D <> 1%nat ->
  params !! "som_codebook_vecs" = Some (inj2 c) ->
  params !! "som_addresses" = Some (inj2 a) ->
  max_dist self = Fin m0 ->
  Rmax (largest_pairwise c) m0 <> 0 ->
  supported_mode mode ->
  dsom_update self params (inj2 obs) mode
  = (set_max_dist self (Fin (Rmax (largest_pairwise c) m0)),
     Ok (zip_with (zip_with nadd) (inj2 c)
           (map (map clip_1)
              (reduced_delta (lr self) (elasticity self)
                 (Rmax (largest_pairwise c) m0) a c mode obs)))).
Proof.
  intros HC Hne HO HA HlenA HD Hcb Haddr Hm Hmax Hmode.
  set (maxd := Rmax (largest_pairwise c) m0) in *.
  unfold dsom_update, getitem. rewrite Hcb, Haddr.
  cbv zeta.
  rewrite (current_max_dist_fin D) by assumption.
  cbn [max_dist set_max_dist elasticity lr nmaximum]. rewrite Hm.
  cbn [nmaximum]. fold maxd.
  rewrite !(diff_fin D) by assumption.
  rewrite !stage_dist, !stage_winner_idx, !stage_winner_cb_vecs.
  rewrite !(stage_diff_again c obs D) by assumption.
  rewrite !stage_dist.
  rewrite !stage_denominators by assumption.
  rewrite !(stage_numerators a c obs D Aw) by assumption.
  rewrite !stage_h.
  rewrite !stage_dist_normed by assumption.
  rewrite !stage_diff_table.
  rewrite !stage_delta_w_batch.
  rewrite length_batch_delta.
  assert (Hsq : squeeze_add (inj2 c) = zip_with (zip_with nadd) (inj2 c)).
  { unfold squeeze_add. rewrite ncols_inj2, (ncols_rect D) by assumption.
    destruct (Nat.eqb_spec D 1); [contradiction|reflexivity]. }
  unfold reduced_delta. rewrite !nrows_inj2, !ncols_inj2.
  destruct Hmode as [->| ->]; cbn [String.eqb Ascii.eqb Bool.eqb]; cbn match;
    now rewrite Hsq.
Qed.

(** ** DSOM: the winner *)





(** ** DSOM: real results *)













(** ** DSOM: a codebook of four prototypes *)

Lemma euclid_2d x1 y1 x2 y2 r :
  0 <= r -> r * r = (x1 - x2) * (x1 - x2) + (y1 - y2) * (y1 - y2) ->
  euclid [x1; y1] [x2; y2] = r.
Proof.
  intros Hr E. unfold euclid, sumsq. cbn [zip_with map Rsum foldr].
  apply sqrt_lem_1; [nra|assumption|rewrite E; ring].
Qed.

Lemma euclid_nonneg u v : 0 <= euclid u v.
Proof. unfold euclid. apply sqrt_pos. Qed.

Ltac eval_Rmax :=
  repeat match goal with
    | |- context [Rmax ?x ?y] =>
        first [rewrite (Rmax_left x y) by lra | rewrite (Rmax_right x y) by lra]
    end.

Lemma largest_pairwise_c4 : largest_pairwise c4 = 12.
Proof.
  unfold largest_pairwise, pairwise_dists, c4, Rlist_max.
  cbn [map concat app foldl].
  rewrite (euclid_2d 0 0 0 0 0), (euclid_2d 0 0 3 0 3), (euclid_2d 0 0 7 0 7),
    (euclid_2d 0 0 12 0 12), (euclid_2d 3 0 0 0 3), (euclid_2d 3 0 3 0 0),
    (euclid_2d 3 0 7 0 4), (euclid_2d 3 0 12 0 9), (euclid_2d 7 0 0 0 7),
    (euclid_2d 7 0 3 0 4), (euclid_2d 7 0 7 0 0), (euclid_2d 7 0 12 0 5),
    (euclid_2d 12 0 0 0 12), (euclid_2d 12 0 3 0 9), (euclid_2d 12 0 7 0 5),
    (euclid_2d 12 0 12 0 0) by lra.
  cbn [foldl]. eval_Rmax. reflexivity.
Qed.

Lemma max_dist_c4 : Rmax (largest_pairwise c4) 0 = 12.
Proof. rewrite largest_pairwise_c4. apply Rmax_left. lra. Qed.

Lemma dsom_params_cb cb addr :
  dsom_params cb addr !! "som_codebook_vecs" = Some cb.
Proof.
  unfold dsom_params. rewrite lookup_insert_ne by discriminate.
  apply lookup_insert_eq.
Qed.

Lemma dsom_params_addr cb addr :
  dsom_params cb addr !! "som_addresses" = Some addr.
Proof. unfold dsom_params. apply lookup_insert_eq. Qed.

Lemma rect_c4 : rect 2 c4.
Proof. repeat constructor. Qed.

Lemma rect_a4 : rect 2 a4.
Proof. repeat constructor. Qed.












(** ** SDM: the top-k step *)

Lemma sort_insert_fin x l : sort_insert (Fin x) (inj1 l) = inj1 (Rinsert x l).
Proof.
  unfold inj1. induction l as [|y l IH]; [reflexivity|].
  cbn [map sort_insert sort_leb Rinsert].
  destruct (Rle_dec x y); [reflexivity|]. cbn [map]. now rewrite IH.
Qed.

Lemma jnp_sort_fin v : jnp_sort (inj1 v) = inj1 (Rsort v).
Proof.
  unfold jnp_sort, Rsort. induction v as [|x v IH]; [reflexivity|].
  cbn [inj1 map foldr]. fold (inj1 v). rewrite IH. apply sort_insert_fin.
Qed.

Lemma Rinsert_perm x l : Permutation (Rinsert x l) (x :: l).
Proof.
  induction l as [|y l IH]; cbn; [reflexivity|].
  destruct (Rle_dec x y); [reflexivity|].
  rewrite IH. apply perm_swap.
Qed.

Lemma Rsort_perm v : Permutation (Rsort v) v.
Proof.
  unfold Rsort. induction v as [|x v IH]; cbn; [reflexivity|].
  rewrite Rinsert_perm. now constructor.
Qed.

Lemma Rinsert_sorted x l :
  StronglySorted Rle l -> StronglySorted Rle (Rinsert x l).
Proof.
  induction 1 as [|y l Hl IH Hy]; cbn.
  - repeat constructor.
  - destruct (Rle_dec x y) as [Hxy|Hxy].
    + constructor; [now constructor|].
      constructor; [assumption|].
      eapply Forall_impl; [exact Hy|]. cbn. intros z Hz. lra.
    + constructor; [assumption|].
      rewrite Rinsert_perm. constructor; [lra|assumption].
Qed.

Lemma Rsort_sorted v : StronglySorted Rle (Rsort v).
Proof.
  unfold Rsort. induction v as [|x v IH]; cbn; [constructor|].
  now apply Rinsert_sorted.
Qed.

Lemma sorted_strict l :
  StronglySorted Rle l -> List.NoDup l -> StronglySorted Rlt l.
Proof.
  induction 1 as [|y l Hl IH Hy]; intros Hnd; [constructor|].
  inversion Hnd as [|? ? Hnotin Hnd']; subst.
  constructor; [auto|].
  rewrite List.Forall_forall in *. intros z Hz.
  specialize (Hy z Hz).
  assert (y <> z) by (intros ->; now apply Hnotin).
  lra.
Qed.

Lemma count_above_perm m l l' :
  Permutation l l' -> count_above m l = count_above m l'.
Proof.
  unfold count_above.
  induction 1 as [|x l l' _ IH|x y l|l l' l'' _ IH1 _ IH2]; cbn.
  - reflexivity.
  - destruct (Rlt_dec m x); cbn; now rewrite IH.
  - destruct (Rlt_dec m x), (Rlt_dec m y); reflexivity.
  - congruence.
Qed.

Lemma count_above_all m l :
  Forall (fun x => m < x) l -> count_above m l = length l.
Proof.
  unfold count_above. induction 1 as [|x l Hx _ IH]; cbn; [reflexivity|].
  destruct (Rlt_dec m x); [cbn; now rewrite IH|contradiction].
Qed.

(** In a strictly increasing list, the entries above the one at position
    [j] are the ones after it. *)
Lemma count_above_sorted l j :
  StronglySorted Rlt l -> (j < length l)%nat ->
  count_above (nth j l 0) l = (length l - 1 - j)%nat.
Proof.
  intros Hs. revert j. induction Hs as [|y l Hl IH Hy]; intros j Hj;
    [cbn in Hj; lia|].
  destruct j as [|j].
  - cbn [nth]. unfold count_above. cbn [List.filter].
    destruct (Rlt_dec y y); [lra|].
    fold (count_above y l). rewrite count_above_all by assumption.
    cbn. lia.
  - cbn [nth]. cbn [length] in Hj.
    assert (Hlt : y < nth j l 0).
    { rewrite List.Forall_forall in Hy. apply Hy, nth_In. lia. }
    unfold count_above. cbn [List.filter].
    destruct (Rlt_dec (nth j l 0) y); [lra|].
    fold (count_above (nth j l 0) l). rewrite IH by lia.
    cbn. lia.
Qed.

(** With pairwise distinct entries, exactly [k - 1] entries lie above
    the [k]-th largest. *)
Lemma count_above_kth k v :
  List.NoDup v -> (1 <= k <= length v)%nat ->
  count_above (kth_largest k v) v = (k - 1)%nat.
Proof.
  intros Hnd Hk. unfold kth_largest.
  pose proof (Rsort_perm v) as Hp.
  assert (Hlen : length (Rsort v) = length v) by now apply Permutation_length.
  rewrite (count_above_perm _ v (Rsort v)) by now symmetry.
  rewrite <- Hlen at 1.
  rewrite Hlen.
  rewrite count_above_sorted.
  - lia.
  - apply sorted_strict; [apply Rsort_sorted|].
    eapply Permutation_NoDup; [symmetry; exact Hp|exact Hnd].
  - lia.
Qed.

Lemma getitem_int_kth (k : Z) (v : list R) :
  (1 <= k <= Z.of_nat (length v))%Z ->
  getitem_int NaN (inj1 (Rsort v)) (- k) = Fin (kth_largest (Z.to_nat k) v).
Proof.
  intros Hk. unfold getitem_int, kth_largest.
  assert (Hlen : length (inj1 (Rsort v)) = length v).
  { unfold inj1. rewrite length_map. apply Permutation_length, Rsort_perm. }
  rewrite Hlen.
  replace (- k <? 0)%Z with true by lia.
  replace (Z.to_nat (Z.min (Z.max (- k + Z.of_nat (length v)) 0)
                           (Z.of_nat (length v) - 1)))
    with (length v - Z.to_nat k)%nat by lia.
  unfold inj1. apply (nth_map_lt Fin).
  unfold inj1 in Hlen. rewrite length_map in Hlen. lia.
Qed.

Lemma count_nonzero_clipped m v :
  count_nonzero (inj1 (map (fun x => Rmax (x - m) 0) v)) = count_above m v.
Proof.
  unfold count_nonzero, count_above, inj1.
  induction v as [|x v IH]; [reflexivity|].
  cbn [map List.filter nonzero].
  destruct (Rlt_dec m x) as [Hlt|Hge].
  - rewrite Rmax_left by lra.
    destruct (Req_dec_T (x - m) 0); [lra|]. cbn. now rewrite IH.
  - rewrite Rmax_right by lra.
    destruct (Req_dec_T 0 0); [|congruence]. exact IH.
Qed.

Lemma top_k_one_row (k : Z) (v : list R) :
  (1 <= k <= Z.of_nat (length v))%Z ->
  top_k k [inj1 v]
  = Ok [inj1 (map (fun x => Rmax (x - kth_largest (Z.to_nat k) v) 0) v)].
Proof.
  intros Hk. unfold top_k. cbn [map].
  rewrite jnp_sort_fin, getitem_int_kth by assumption.
  unfold bcast_rows, broadcast_ok. cbn [length].
  rewrite Nat.eqb_refl, !orb_true_r. cbn.
  rewrite bcast_singleton_r. unfold maximum_0, inj1.
  cbn [map]. rewrite !map_map. reflexivity.
Qed.

(** C5 (as amended). For a single sample with [1 <= k_abs <= K] real
    activations, the top-k step subtracts the [k_abs]-th largest
    activation from every activation and clips at zero; an activation
    stays non-zero exactly when it is above the [k_abs]-th largest, so
    with pairwise distinct values exactly [k_abs - 1] activations are
    retained, in their order. *)
Theorem top_k_single (k : Z) (v : list R) :
  (1 <= k <= Z.of_nat (length v))%Z ->
  let m := kth_largest (Z.to_nat k) v in
  let out := map (fun x => Rmax (x - m) 0) v in
  top_k k [inj1 v] = Ok [inj1 out]
  /\ In m v
  /\ (forall x, Rmax (x - m) 0 <> 0 <-> m < x)
  /\ (List.NoDup v -> count_nonzero (inj1 out) = (Z.to_nat k - 1)%nat)
  /\ (forall x y, m < x -> x < y -> Rmax (x - m) 0 < Rmax (y - m) 0).
Proof.
  intros Hk m out. split; [now apply top_k_one_row|].
  split; [|split; [|split]].
  - unfold m, kth_largest.
    apply (Permutation_in _ (Rsort_perm v)), nth_In.
    rewrite (Permutation_length (Rsort_perm v)). lia.
  - intros x. unfold Rmax. destruct (Rle_dec (x - m) 0); lra.
  - intros Hnd. unfold out. rewrite count_nonzero_clipped.
    apply count_above_kth; [assumption|lia].
  - intros x y Hx Hxy. rewrite !Rmax_left by lra. lra.
Qed.

Ltac eval_Rle_dec :=
  repeat match goal with
    | |- context [Rle_dec ?x ?y] => destruct (Rle_dec x y); try lra
    end.

Ltac eval_Req_dec :=
  repeat match goal with
    | |- context [Req_dec_T ?x ?y] => destruct (Req_dec_T x y); try lra
    end.

Ltac eval_Rsort :=
  unfold Rsort;
  repeat (cbn [foldr Rinsert];
          match goal with
          | |- context [Rle_dec ?x ?y] => destruct (Rle_dec x y); try lra
          end).

Lemma Rsort_321 : Rsort [3; 2; 1] = [1; 2; 3].
Proof. eval_Rsort. reflexivity. Qed.

Lemma top_k_single_witness :
  top_k 2 [inj1 [3; 2; 1]]
  = Ok [inj1 (map (fun x => Rmax (x - kth_largest 2 [3; 2; 1]) 0) [3; 2; 1])].
Proof.
  apply (top_k_single 2 [3; 2; 1]). cbn. lia.
Defined.

(** C5, where it fails.  A single sample [3, 2, 1] with [k_abs = 2]: the
    second largest activation is subtracted and becomes zero itself, so
    one activation stays non-zero, not two.  A batch of two samples with
    two activations each: the thresholds 1 and 2 of the two samples are
    subtracted along the last axis, the one of sample [j] from activation
    [j] of both samples, so sample 1 gives [1, 1] where its own threshold
    would give [0, 1]. *)
Lemma top_k_counterexample :
  (top_k 2 [inj1 [3; 2; 1]] = Ok [inj1 [1; 0; 0]]
   /\ count_nonzero (inj1 [1; 0; 0]) = 1%nat)
  /\ top_k 2 (inj2 [[5; 1]; [2; 3]]) = Ok (inj2 [[4; 0]; [1; 1]]).
Proof.
  split; [split|].
  - rewrite top_k_one_row by (cbn; lia).
    unfold kth_largest. rewrite Rsort_321.
    change (Z.to_nat 2) with 2%nat. cbn [length Nat.sub nth map].
    rewrite (Rmax_left (3 - 2) 0), (Rmax_right (2 - 2) 0),
      (Rmax_right (1 - 2) 0) by lra.
    now replace (3 - 2) with 1 by lra.
  - unfold count_nonzero. cbn. eval_Req_dec. reflexivity.
  - unfold top_k, inj2. cbn [map]. rewrite !jnp_sort_fin.
    rewrite !getitem_int_kth by (cbn; lia).
    unfold kth_largest. change (Z.to_nat 2) with 2%nat.
    assert (E1 : Rsort [5; 1] = [1; 5]) by (eval_Rsort; reflexivity).
    assert (E2 : Rsort [2; 3] = [2; 3]) by (eval_Rsort; reflexivity).
    rewrite E1, E2. cbn [length Nat.sub nth].
    unfold bcast_rows, broadcast_ok, ncols, inj1. cbn [hd length map Nat.eqb orb].
    cbn [mbind result_bind].
    unfold bcast2, maximum_0. cbn [bcast zip_with map nsub nneg nadd nmaximum].
    rewrite (Rmax_left (5 + - (1)) 0), (Rmax_right (1 + - (2)) 0),
      (Rmax_left (2 + - (1)) 0), (Rmax_left (3 + - (2)) 0) by lra.
    replace (5 + - (1)) with 4 by lra. replace (2 + - (1)) with 1 by lra.
    replace (3 + - (2)) with 1 by lra. reflexivity.
Qed.

(** ** The jitted update on real numbers *)


Lemma td_target_fin args (r d q : list R) :
  length d = length r -> length q = length r ->
  td_target args (inj1 r) (inj1 d) (inj1 q) = inj1 (td_targets (gamma args) r d q).
Proof.
  intros Hd Hq. unfold td_target, inj1.
  rewrite (bcast_same_length nmul) by (rewrite !length_map; lia).
  rewrite bcast_same_length
    by (rewrite length_zip_with, !length_map; lia).
  unfold td_targets. clear Hd Hq. revert d q.
  induction r as [|x r IH]; intros [|y d] [|z q]; cbn; try reflexivity.
  now rewrite IH.
Qed.








Section UpdateSpec.

Context {OptState : Type}.
Variable apply_fn : q_network_t -> gmap string array2 -> array2 -> array2.
Variable grad : (gmap string array2 -> num) -> gmap string array2 -> gmap string array2.
Variable adam_update :
  gmap string array2 -> OptState -> gmap string array2 -> gmap string array2 * OptState.



End UpdateSpec.

(** ** Target sync and configuration errors *)

Section LoopSpec.

Context {OptState World : Type}.
Variable apply_fn : q_network_t -> gmap string array2 -> array2 -> array2.
Variable grad : (gmap string array2 -> num) -> gmap string array2 -> gmap string array2.
Variable adam_update :
  gmap string array2 -> OptState -> gmap string array2 -> gmap string array2 * OptState.
Variable init : q_network_t -> gmap string array2.
Variable adam_init : gmap string array2 -> OptState.
Variable interact : World -> @TrainState OptState -> q_network_t -> R -> World * nat.
Variable rb_sample : World -> Z -> Batch * World.

Local Abbreviation setup' := (setup init adam_init).
Local Abbreviation loop_body' :=
  (loop_body apply_fn grad adam_update interact rb_sample).
Local Abbreviation run_loop' :=
  (run_loop apply_fn grad adam_update interact rb_sample).
Local Abbreviation main' :=
  (main apply_fn grad adam_update init adam_init interact rb_sample).





End LoopSpec.

(** ** The theorems at concrete inputs *)


Lemma real_tree_one_param net : real_tree (one_param net).
Proof.
  unfold real_tree, one_param. apply map_Forall_singleton.
  repeat constructor.
Qed.



(** * More of the program *)

(** ** The schedules *)

(** X1. The exponential schedule returns [max(start_e * decay ** t, end_e)]
    and so never less than [end_e]; with [start_e >= 0] and
    [0 <= decay <= 1] it does not increase as episodes are counted. *)
Theorem exponential_schedule_spec (start_e end_e decay : R) :
  0 <= start_e -> 0 <= decay <= 1 ->
  (forall t : nat,
      exponential_schedule start_e end_e decay t
      = Ok (Rmax (start_e * decay ^ t) end_e))
  /\ (forall (t : nat) r,
         exponential_schedule start_e end_e decay t = Ok r -> end_e <= r)
  /\ (forall (t1 t2 : nat) r1 r2,
         (t1 <= t2)%nat ->
         exponential_schedule start_e end_e decay t1 = Ok r1 ->
         exponential_schedule start_e end_e decay t2 = Ok r2 ->
         r2 <= r1).
Proof.
  intros Hs Hd.
  assert (Hform : forall t : nat,
             exponential_schedule start_e end_e decay t
             = Ok (Rmax (start_e * decay ^ t) end_e)).
  { intros t. unfold exponential_schedule. now rewrite py_max_Rmax. }
  split; [exact Hform|]. split.
  - intros t r. rewrite Hform. intros [= <-]. apply Rmax_r.
  - intros t1 t2 r1 r2 Ht. rewrite !Hform. intros [= <-] [= <-].
    assert (Hpow : decay ^ t2 <= decay ^ t1).
    { induction Ht as [|t2 Ht IH]; [lra|].
      cbn [pow]. assert (0 <= decay ^ t2) by (apply pow_le; lra). nra. }
    apply Rmax_lub; [|apply Rmax_r].
    eapply Rle_trans; [|apply Rmax_l]. nra.
Qed.

Lemma exponential_schedule_spec_witness :
  exists r1 r2,
    exponential_schedule 1 (5 / 100) (995 / 1000) 3 = Ok r1
    /\ exponential_schedule 1 (5 / 100) (995 / 1000) 7 = Ok r2
    /\ r2 <= r1.
Proof.
  destruct (exponential_schedule_spec 1 (5 / 100) (995 / 1000))
    as (Hform & _ & Hmono); [lra|lra|].
  eexists _, _. split; [apply Hform|]. split; [apply Hform|].
  eapply (Hmono 3%nat 7%nat); [lia|apply Hform|apply Hform].
Defined.

(** X2. A zero [duration] makes the linear schedule raise
    [ZeroDivisionError] at every step; otherwise it returns a value that
    is never below [end_e], and at step 0 the larger of [start_e] and
    [end_e]. *)
Theorem linear_schedule_edges (start_e end_e : R) :
  (forall t, linear_schedule start_e end_e 0 t = Raise ZeroDivisionError)
  /\ (forall duration t r,
         linear_schedule start_e end_e duration t = Ok r ->
         duration <> 0 /\ end_e <= r)
  /\ (forall duration,
         duration <> 0 ->
         linear_schedule start_e end_e duration 0 = Ok (Rmax start_e end_e)).
Proof.
  split; [|split].
  - intros t. unfold linear_schedule, py_div.
    destruct (Req_dec_T 0 0); [reflexivity|congruence].
  - intros duration t r. unfold linear_schedule, py_div.
    destruct (Req_dec_T duration 0) as [E|E]; [discriminate|].
    cbn. rewrite py_max_Rmax. intros [= <-]. split; [assumption|apply Rmax_r].
  - intros duration Hd. rewrite linear_schedule_ok by assumption.
    f_equal. f_equal. lra.
Qed.

(** ** The training loop *)

Section LoopMore.

Context {OptState World : Type}.
Variable apply_fn : q_network_t -> gmap string array2 -> array2 -> array2.
Variable grad : (gmap string array2 -> num) -> gmap string array2 -> gmap string array2.
Variable adam_update :
  gmap string array2 -> OptState -> gmap string array2 -> gmap string array2 * OptState.
Variable init : q_network_t -> gmap string array2.
Variable adam_init : gmap string array2 -> OptState.
Variable interact : World -> @TrainState OptState -> q_network_t -> R -> World * nat.
Variable rb_sample : World -> Z -> Batch * World.

Local Abbreviation setup' := (setup init adam_init).
Local Abbreviation loop_body' :=
  (loop_body apply_fn grad adam_update interact rb_sample).
Local Abbreviation run_loop' :=
  (run_loop apply_fn grad adam_update interact rb_sample).
Local Abbreviation main' :=
  (main apply_fn grad adam_update init adam_init interact rb_sample).

Implicit Types (st : @LoopState OptState World).

(** X3. With the LINEAR scheduler and [exploration_fraction *
    total_timesteps = 0] the first iteration of the loop divides by zero:
    [main] raises [ZeroDivisionError] before the agent acts. *)
Theorem main_zero_duration args (w : World) :
  supported_architecture (architecture args) ->
  eps_scheduler args = "LINEAR" ->
  exploration_fraction args * IZR (total_timesteps args) = 0 ->
  (0 < total_timesteps args)%Z ->
  main' args w = Raise ZeroDivisionError.
Proof.
  intros Harch Hs Hd Hsteps. unfold main.
  destruct (select_network_Some args Harch) as [net Hnet].
  destruct (setup_Ok init adam_init args w net Hnet) as (target & _ & ->).
  cbn [mbind result_bind].
  destruct (range_pos _ Hsteps) as [rest ->]. cbn [run_loop].
  unfold loop_body, epsilon_of. rewrite Hs. cbn [String.eqb Ascii.eqb Bool.eqb].
  rewrite Hd. unfold linear_schedule, py_div.
  destruct (Req_dec_T 0 0); [reflexivity|congruence].
Qed.

(** One iteration advances the optimizer step by one when it trains and
    leaves it alone otherwise. *)
Lemma loop_body_step args t st st' :
  loop_body' args t st = Ok st' ->
  step (q_state st')
  = (step (q_state st) + (if trains args t then 1 else 0))%Z.
Proof.
  unfold loop_body, trains. intros H.
  apply bind_Ok_inv in H as (eps & _ & H).
  destruct (interact _ _ _ _) as [w finished].
  destruct (t >? learning_starts args)%Z;
    [|injection H as <-; cbn; lia].
  apply bind_Ok_inv in H as (r & Hr & H).
  apply bind_Ok_inv in H as (st1 & H1 & H).
  unfold py_mod in Hr.
  destruct (train_frequency args =? 0)%Z; [discriminate|].
  injection Hr as <-. cbn [andb].
  assert (Hs1 : step (q_state st1)
                = (step (q_state st)
                   + (if (t mod train_frequency args =? 0)%Z then 1 else 0))%Z).
  { destruct (t mod train_frequency args =? 0)%Z.
    - cbn in H1. destruct (rb_sample w (batch_size args)) as [data w1].
      apply bind_Ok_inv in H1 as ([[[loss old_val] qs] net] & Hup & [= <-]).
      cbn. now apply update_target in Hup.
    - injection H1 as <-. cbn. lia. }
  apply bind_Ok_inv in H as (r' & _ & H).
  destruct (r' =? 0)%Z.
  - apply bind_Ok_inv in H as (target & _ & [= <-]). cbn. exact Hs1.
  - now injection H as <-.
Qed.

(** X4. After the first [n] iterations of a run the optimizer step has
    grown by the number of steps [t < n] with [t > learning_starts] and
    [t % train_frequency = 0]; while [n <= learning_starts + 1], so also
    at step [learning_starts] itself, nothing has trained and the train
    state is the one the loop started from. *)
Theorem run_loop_training_steps args (n : nat) st0 st :
  run_loop' args (range (Z.of_nat n)) st0 = Ok st ->
  step (q_state st)
  = (step (q_state st0) + training_steps args (Z.of_nat n))%Z
  /\ ((Z.of_nat n <= learning_starts args + 1)%Z ->
      q_state st = q_state st0 /\ training_steps args (Z.of_nat n) = 0%Z).
Proof.
  intros Hrun.
  assert (Hcount : step (q_state st)
                   = (step (q_state st0) + training_steps args (Z.of_nat n))%Z).
  { revert st Hrun. induction n as [|n IH]; intros st.
    - unfold training_steps. change (range (Z.of_nat 0)) with (@nil Z).
      cbn. intros [= <-]. lia.
    - rewrite range_succ, run_loop_app. intros H.
      apply bind_Ok_inv in H as (st1 & H1 & H2).
      cbn in H2. apply bind_Ok_inv in H2 as (st2 & H2 & [= <-]).
      apply loop_body_step in H2. rewrite H2, (IH _ H1).
      unfold training_steps. rewrite range_succ, List.filter_app, length_app.
      cbn [List.filter]. destruct (trains args (Z.of_nat n)); cbn [length]; lia. }
  split; [exact Hcount|]. intros Hn.
  pose proof (run_loop_warmup apply_fn grad adam_update interact rb_sample
                args n st0 st Hn Hrun) as Hq.
  split; [exact Hq|]. rewrite Hq in Hcount. lia.
Qed.

(** X5. With [total_timesteps <= 0] the loop has no iteration: [main]
    returns the state of the setup, in which the target parameters are
    the initial live parameters, whatever the scheduler tag is. *)
Theorem main_no_steps args (w : World) net :
  (total_timesteps args <= 0)%Z ->
  select_network args = Some net ->
  real_tree (init net) ->
  main' args w
  = Ok {| world := w;
          q_state := {| step := 0; params := init net;
                        target_params := init net;
                        opt_state := adam_init (init net) |};
          q_network := net; q_network_k := None; num_episodes := 0 |}.
Proof.
  intros Hn Hnet Hreal. unfold main.
  destruct (setup_Ok init adam_init args w net Hnet) as (target & Hinc & ->).
  rewrite incremental_update_same in Hinc by assumption.
  injection Hinc as <-. cbn [mbind result_bind].
  unfold range. replace (Z.to_nat (total_timesteps args)) with 0%nat by lia.
  reflexivity.
Qed.

End LoopMore.

Lemma main_zero_duration_witness :
  main zero_apply id_grad plain_update one_param unit_init still_world empty_sample
    (with_schedule "LINEAR" 0 (with_architecture "BASELINE" default_args)) tt
  = Raise ZeroDivisionError.
Proof.
  apply (main_zero_duration zero_apply id_grad plain_update one_param unit_init
           still_world empty_sample).
  - now left.
  - reflexivity.
  - cbn. lra.
  - reflexivity.
Defined.

(** The first iteration of a run that trains from step 0 on. *)
Lemma first_iteration_trains :
  exists st',
    loop_body zero_apply id_grad plain_update still_world empty_sample
      (with_learning_starts (-1) (with_architecture "BASELINE" default_args)) 0
      {| world := tt;
         q_state := {| step := 0; params := one_param QNetwork;
                       target_params := one_param QNetwork;
                       opt_state := tt |};
         q_network := QNetwork; q_network_k := None; num_episodes := 0 |}
    = Ok st'.
Proof.
  unfold loop_body, epsilon_of.
  cbn [eps_scheduler with_architecture with_learning_starts default_args
       String.eqb Ascii.eqb Bool.eqb start_e end_e exploration_fraction
       total_timesteps].
  rewrite linear_schedule_ok by lra.
  cbn [mbind result_bind still_world world q_state q_network num_episodes
       q_network_k learning_starts with_learning_starts with_architecture
       default_args train_frequency target_network_frequency batch_size].
  change (0 >? -1)%Z with true. cbv iota.
  change (py_mod 0 10) with (Ok 0%Z : result Z).
  cbn [mbind result_bind].
  change (0 =? 0)%Z with true. cbv iota.
  unfold empty_sample, update, dsom_block, sdm_block, apply_gradients,
    apply_updates, mse_loss, plain_update, id_grad, zero_apply.
  cbn [architecture with_learning_starts with_architecture default_args
       String.eqb Ascii.eqb Bool.eqb mbind result_bind map mapM
       observations actions next_observations rewards dones
       params opt_state target_params step replace_params].
  rewrite tree_map2_ok by reflexivity.
  cbn [mbind mret result_bind result_ret].
  change (py_mod 0 500) with (Ok 0%Z : result Z).
  cbn [mbind result_bind].
  change (0 =? 0)%Z with true. cbv iota.
  cbn [q_state params target_params tau with_learning_starts
       with_architecture default_args].
  unfold incremental_update. rewrite tree_map2_ok.
  - cbn [mbind result_bind]. eexists. reflexivity.
  - rewrite dom_map_zip_with_L. apply (idemp_L (∩)).
Defined.

Lemma run_loop_training_steps_witness :
  exists st,
    run_loop zero_apply id_grad plain_update still_world empty_sample
      (with_learning_starts (-1) (with_architecture "BASELINE" default_args))
      (range 1)
      {| world := tt;
         q_state := {| step := 0; params := one_param QNetwork;
                       target_params := one_param QNetwork;
                       opt_state := tt |};
         q_network := QNetwork; q_network_k := None; num_episodes := 0 |}
    = Ok st
    /\ step (q_state st)
       = (0 + training_steps
                (with_learning_starts (-1)
                   (with_architecture "BASELINE" default_args)) 1)%Z.
Proof.
  destruct first_iteration_trains as [st' Hbody].
  exists st'.
  assert (Hrun :
    run_loop zero_apply id_grad plain_update still_world empty_sample
      (with_learning_starts (-1) (with_architecture "BASELINE" default_args))
      (range (Z.of_nat 1))
      {| world := tt;
         q_state := {| step := 0; params := one_param QNetwork;
                       target_params := one_param QNetwork;
                       opt_state := tt |};
         q_network := QNetwork; q_network_k := None; num_episodes := 0 |}
    = Ok st').
  { change (range (Z.of_nat 1)) with [0%Z]. cbn [run_loop].
    rewrite Hbody. reflexivity. }
  split; [exact Hrun|].
  apply (run_loop_training_steps zero_apply id_grad plain_update still_world
           empty_sample _ 1 _ _ Hrun).
Defined.

Lemma main_no_steps_witness :
  main zero_apply id_grad plain_update one_param unit_init still_world empty_sample
    (with_total_timesteps 0 (with_architecture "SDM" default_args)) tt
  = Ok {| world := tt;
          q_state := {| step := 0; params := one_param SDM_net;
                        target_params := one_param SDM_net;
                        opt_state := unit_init (one_param SDM_net) |};
          q_network := SDM_net; q_network_k := None; num_episodes := 0 |}.
Proof.
  apply (main_no_steps zero_apply id_grad plain_update one_param unit_init
           still_world empty_sample).
  - cbn. lia.
  - reflexivity.
  - apply real_tree_one_param.
Defined.

(** ** DSOM: errors and degenerate inputs *)

(** X6. [dsom_update] looks the codebook up first and the addresses
    second, and raises [KeyError] for the first one missing; a codebook
    without prototypes makes [jnp.max] raise [ValueError].  In all three
    cases the instance is left as it was. *)
Theorem dsom_update_errors self (params : gmap string array2) obs mode :
  (params !! "som_codebook_vecs" = None ->
   dsom_update self params obs mode
   = (self, Raise (KeyError "som_codebook_vecs")))
  /\ (forall cb,
        params !! "som_codebook_vecs" = Some cb ->
        params !! "som_addresses" = None ->
        dsom_update self params obs mode
        = (self, Raise (KeyError "som_addresses")))
  /\ (forall addr,
        params !! "som_codebook_vecs" = Some [] ->
        params !! "som_addresses" = Some addr ->
        dsom_update self params obs mode
        = (self,
           Raise (ValueError
                    "zero-size array to reduction operation max which has no identity"))).
Proof.
  split; [|split].
  - intros H. unfold dsom_update, getitem. now rewrite H.
  - intros cb Hcb H. unfold dsom_update, getitem. now rewrite Hcb, H.
  - intros addr Hcb Haddr. unfold dsom_update, getitem.
    now rewrite Hcb, Haddr.
Qed.



Lemma jnp_sum_nan v : In NaN v -> jnp_sum v = NaN.
Proof.
  unfold jnp_sum. induction v as [|x v IH]; [intros []|].
  intros [->|H]; cbn [foldr]; [reflexivity|].
  rewrite (IH H). now destruct x.
Qed.






Lemma zip_with_nadd_zero (r : list R) :
  zip_with nadd (inj1 r) (replicate (length r) (Fin 0)) = inj1 r.
Proof.
  unfold inj1. induction r as [|x r IH]; [reflexivity|].
  cbn. rewrite IH. f_equal. f_equal. lra.
Qed.

Lemma zip_with_nadd_nan (r : list R) :
  zip_with nadd (inj1 r) (replicate (length r) NaN) = map (fun _ => NaN) (inj1 r).
Proof.
  unfold inj1. induction r as [|x r IH]; [reflexivity|].
  cbn. now rewrite IH.
Qed.

Lemma map_replicate {A B} (f : A -> B) n x :
  map f (replicate n x) = replicate n (f x).
Proof. induction n as [|n IH]; [reflexivity|]. cbn. now rewrite IH. Qed.

Lemma clip_1_zero : clip_1 (Fin 0) = Fin 0.
Proof.
  cbn. f_equal. unfold Rmin, Rmax.
  destruct (Rle_dec 0 (-1)); destruct (Rle_dec _ 1); lra.
Qed.

(** X9. An empty batch: with mode ['sum'] the codebook comes back as it
    was, with mode ['avg'] the mean over no items is 0/0 and every
    prototype comes back as [nan]. *)
Theorem dsom_update_empty_batch self (params : gmap string array2)
    (c a : list (list R)) (D Aw : nat) (m0 : R) :
  rect D c -> c <> [] -> rect Aw a -> length a = length c -> D <> 1%nat ->
  params !! "som_codebook_vecs" = Some (inj2 c) ->
  params !! "som_addresses" = Some (inj2 a) ->
  max_dist self = Fin m0 ->
  Rmax (largest_pairwise c) m0 <> 0 ->
  snd (dsom_update self params [] "sum") = Ok (inj2 c)
  /\ snd (dsom_update self params [] "avg")
     = Ok (map (map (fun _ => NaN)) (inj2 c)).
Proof.
  intros Hc Hne Ha Hlen HD Hcb Haddr Hm Hmax.
  assert (Hcols : ncols c = D) by now apply ncols_rect.
  assert (Hobs : rect D (@nil (list R))) by apply List.Forall_nil.
  split.
  - change (@nil (list num)) with (inj2 []).
    rewrite (dsom_update_reading self params [] "sum" c a D Aw m0)
      by (try assumption; now right).
    cbn [snd]. f_equal. unfold reduced_delta, batch_delta, sum_axis0.
    cbn [map foldr String.eqb Ascii.eqb Bool.eqb]. rewrite Hcols.
    unfold nrows, inj2. clear Hne Hcb Hcols Hlen Hmax.
    induction Hc as [|r c Hr _ IH]; [reflexivity|].
    cbn [length replicate map zip_with]. rewrite IH. f_equal.
    rewrite map_replicate, clip_1_zero, <- Hr. apply zip_with_nadd_zero.
  - change (@nil (list num)) with (inj2 []).
    rewrite (dsom_update_reading self params [] "avg" c a D Aw m0)
      by (try assumption; now left).
    cbn [snd]. f_equal. unfold reduced_delta, batch_delta, sum_axis0.
    cbn [map foldr String.eqb Ascii.eqb Bool.eqb length INR]. rewrite Hcols.
    unfold nrows, inj2. clear Hne Hcb Hcols Hlen Hmax.
    induction Hc as [|r c Hr _ IH]; [reflexivity|].
    cbn [length replicate map zip_with]. rewrite IH. f_equal.
    rewrite !map_replicate, ndiv_zero_zero. cbn [clip_1 nmaximum nminimum].
    rewrite <- Hr. apply zip_with_nadd_nan.
Qed.

Lemma dsom_update_empty_batch_witness :
  snd (dsom_update DSOM_init (dsom_params (inj2 c4) (inj2 a4)) [] "sum")
  = Ok (inj2 c4)
  /\ snd (dsom_update DSOM_init (dsom_params (inj2 c4) (inj2 a4)) [] "avg")
     = Ok (map (map (fun _ => NaN)) (inj2 c4)).
Proof.
  apply (dsom_update_empty_batch DSOM_init _ c4 a4 2 2 0).
  - apply rect_c4.
  - discriminate.
  - apply rect_a4.
  - reflexivity.
  - lia.
  - apply dsom_params_cb.
  - apply dsom_params_addr.
  - reflexivity.
  - rewrite max_dist_c4. lra.
Defined.

(** ** The SOM layer *)

(** The distances of [som_layer] on real arrays. *)
Lemma som_layer_reading (c obs : list (list R)) (D : nat) (k : R) :
  rect D c -> rect D obs -> k <> 0 ->
  som_layer (inj2 c) k (inj2 obs)
  = inj2 (map (fun o => map (fun p => exp (- euclid p o / k)) c) obs).
Proof.
  intros Hc Ho Hk. unfold som_layer, bcast3, expand_dims_0, expand_dims_1.
  rewrite bcast_singleton_l. unfold inj2. rewrite !map_map.
  apply map_ext_Forall. eapply Forall_impl; [exact Ho|]. cbn beta.
  intros o Hlo. rewrite bcast_singleton_r. unfold inj1 at 3.
  rewrite !map_map.
  apply map_ext_Forall. eapply Forall_impl; [exact Hc|]. cbn beta.
  intros p Hlp.
  change (nsqrt (jnp_sum (map nsquare (bcast nsub (inj1 p) (inj1 o)))))
    with (linalg_norm (bcast nsub (inj1 p) (inj1 o))).
  rewrite norm_sub_fin by congruence.
  cbn [nneg]. rewrite ndiv_fin by assumption. reflexivity.
Qed.

(** X10. For [k > 0] the SOM mask of real observations against real
    prototypes is [exp(-distance / k)]: a number in (0, 1] that is 1
    exactly at distance 0 and that is larger for the nearer of two
    prototypes. *)
Theorem som_layer_mask (c obs : list (list R)) (D : nat) (k : R) :
  rect D c -> rect D obs -> 0 < k ->
  som_layer (inj2 c) k (inj2 obs)
  = inj2 (map (fun o => map (fun p => exp (- euclid p o / k)) c) obs)
  /\ (forall o p, 0 < exp (- euclid p o / k) <= 1)
  /\ (forall o p, exp (- euclid p o / k) = 1 <-> euclid p o = 0)
  /\ (forall o p q,
         euclid p o <= euclid q o ->
         exp (- euclid q o / k) <= exp (- euclid p o / k)).
Proof.
  intros Hc Ho Hk.
  assert (Hmono : forall x y, 0 <= x <= y -> exp (- y / k) <= exp (- x / k)).
  { intros x y [Hx Hxy].
    assert (Hle : - y / k <= - x / k).
    { unfold Rdiv. apply Rmult_le_compat_r; [|lra].
      left. now apply Rinv_0_lt_compat. }
    destruct Hle as [Hlt | ->]; [left; now apply exp_increasing|lra]. }
  split; [apply (som_layer_reading c obs D); [assumption|assumption|lra]|].
  split; [|split].
  - intros o p. split; [apply exp_pos|].
    assert (H0 : exp (- 0 / k) = 1).
    { replace (- 0 / k) with 0 by (field; lra). apply exp_0. }
    rewrite <- H0. apply Hmono. split; [lra|apply euclid_nonneg].
  - intros o p. split.
    + intros H. rewrite <- exp_0 in H. apply exp_inv in H.
      assert (E : - euclid p o = (- euclid p o / k) * k) by (field; lra).
      rewrite H in E. lra.
    + intros ->. replace (- 0 / k) with 0 by (field; lra). apply exp_0.
  - intros o p q H. apply Hmono. split; [apply euclid_nonneg|assumption].
Qed.

Lemma som_layer_mask_witness :
  som_layer (inj2 c4) (5 / 10) (inj2 [[1; 0]])
  = inj2 (map (fun o => map (fun p => exp (- euclid p o / (5 / 10))) c4) [[1; 0]]).
Proof.
  apply (som_layer_mask c4 [[1; 0]] 2 (5 / 10)).
  - apply rect_c4.
  - repeat constructor.
  - lra.
Defined.

(** ** The address grid *)

Lemma int_of_sqrt (h : Z) :
  (0 <= h)%Z -> int_of_float (sqrt (IZR h)) = Z.sqrt h.
Proof.
  intros Hh. unfold int_of_float.
  destruct (Rle_dec 0 (sqrt (IZR h))) as [_|H]; [|destruct H; apply sqrt_pos].
  pose proof (Z.sqrt_spec h Hh) as [Hlo Hhi].
  pose proof (Z.sqrt_nonneg h) as Hs.
  apply Zfloor_eq. split.
  - rewrite <- (sqrt_square (IZR (Z.sqrt h))) by now apply IZR_le.
    apply sqrt_le_1_alt. rewrite <- mult_IZR. now apply IZR_le.
  - replace (IZR (Z.sqrt h) + 1) with (IZR (Z.succ (Z.sqrt h)))
      by (rewrite succ_IZR; reflexivity).
    rewrite <- (sqrt_square (IZR (Z.succ (Z.sqrt h))))
      by (apply IZR_le; lia).
    apply sqrt_lt_1_alt. split; [now apply IZR_le|].
    rewrite <- mult_IZR. now apply IZR_lt.
Qed.

Lemma zip_with_app_same {A B C} (f : A -> B -> C) l1 l2 k1 k2 :
  length l1 = length k1 ->
  zip_with f (l1 ++ l2) (k1 ++ k2) = zip_with f l1 k1 ++ zip_with f l2 k2.
Proof.
  revert k1. induction l1 as [|x l1 IH]; intros [|y k1]; cbn;
    try discriminate; [reflexivity|].
  intros [= H]. now rewrite IH.
Qed.

(** The grid as a list: row [i] of the mesh gives the addresses
    [(0, i), (1, i), ...]. *)
Lemma constant_initializer_grid (grid_dim : R) :
  constant_initializer grid_dim
  = concat (map (fun i => map (fun j => [Fin (IZR j); Fin (IZR i)])
                             (arange (int_of_float grid_dim)))
                (arange (int_of_float grid_dim))).
Proof.
  unfold constant_initializer, meshgrid.
  generalize (arange (int_of_float grid_dim)) at 1 3 5 as a.
  generalize (arange (int_of_float grid_dim)) as b.
  intros b a. induction b as [|i b IH]; [reflexivity|].
  cbn [map concat]. rewrite !map_app, zip_with_app_same
    by now rewrite !length_map.
  rewrite IH. f_equal. rewrite !map_map.
  clear. induction a as [|j a IH]; [reflexivity|]. cbn. now rewrite IH.
Qed.

Lemma length_arange n : length (arange n) = Z.to_nat n.
Proof. unfold arange. now rewrite length_map, length_seq. Qed.

Lemma in_arange n i : In i (arange n) <-> (0 <= i < n)%Z.
Proof.
  unfold arange. rewrite in_map_iff. split.
  - intros (k & <- & Hk). apply in_seq in Hk. lia.
  - intros Hi. exists (Z.to_nat i). split; [lia|]. apply in_seq. lia.
Qed.

Lemma length_concat_const {A B} (f : A -> list B) (l : list A) n :
  (forall x, length (f x) = n) -> length (concat (map f l)) = (length l * n)%nat.
Proof.
  intros H. induction l as [|x l IH]; [reflexivity|].
  cbn. rewrite length_app, H, IH. reflexivity.
Qed.

(** X11. The initial addresses form the square grid of side
    [floor(sqrt(hidden_size))]: one address [(j, i)] per grid point, so
    their number is at most [hidden_size] and reaches it exactly when
    [hidden_size] is a perfect square. *)
Theorem som_addresses_grid (hidden_size : Z) :
  (0 <= hidden_size)%Z ->
  exists addresses,
    som_addresses_init hidden_size = Ok addresses
    /\ Z.of_nat (length addresses) = (Z.sqrt hidden_size * Z.sqrt hidden_size)%Z
    /\ (Z.of_nat (length addresses) <= hidden_size)%Z
    /\ (Z.of_nat (length addresses) = hidden_size
        <-> exists s, (0 <= s)%Z /\ hidden_size = (s * s)%Z)
    /\ (forall a, In a addresses <->
          exists i j, (0 <= i < Z.sqrt hidden_size)%Z
                      /\ (0 <= j < Z.sqrt hidden_size)%Z
                      /\ a = [Fin (IZR j); Fin (IZR i)]).
Proof.
  intros Hh. unfold som_addresses_init, math_sqrt.
  destruct (Rlt_dec (IZR hidden_size) 0) as [H|_];
    [apply lt_IZR in H; lia|].
  cbn [mbind result_bind]. eexists. split; [reflexivity|].
  rewrite constant_initializer_grid, int_of_sqrt by assumption.
  pose proof (Z.sqrt_spec hidden_size Hh) as [Hlo Hhi].
  pose proof (Z.sqrt_nonneg hidden_size) as Hs.
  assert (Hlen : Z.of_nat (length (concat
            (map (fun i => map (fun j => [Fin (IZR j); Fin (IZR i)])
                               (arange (Z.sqrt hidden_size)))
                 (arange (Z.sqrt hidden_size)))))
          = (Z.sqrt hidden_size * Z.sqrt hidden_size)%Z).
  { rewrite (length_concat_const _ _ (Z.to_nat (Z.sqrt hidden_size)))
      by (intros x; now rewrite length_map, length_arange).
    rewrite length_arange. lia. }
  split; [exact Hlen|]. rewrite Hlen.
  split; [exact Hlo|]. split.
  - split.
    + intros E. exists (Z.sqrt hidden_size). split; [assumption|lia].
    + intros (s & Hs0 & ->). now rewrite Z.sqrt_square.
  - intros a. rewrite in_concat. split.
    + intros (l & Hl & Ha). apply in_map_iff in Hl as (i & <- & Hi).
      apply in_map_iff in Ha as (j & <- & Hj).
      apply in_arange in Hi, Hj. eauto.
    + intros (i & j & Hi & Hj & ->).
      eexists. split.
      * apply in_map_iff. exists i. split; [reflexivity|].
        now apply in_arange.
      * apply in_map_iff. exists j. split; [reflexivity|].
        now apply in_arange.
Qed.

Lemma som_addresses_grid_witness :
  exists addresses,
    som_addresses_init 800 = Ok addresses
    /\ Z.of_nat (length addresses) = 784%Z.
Proof.
  destruct (som_addresses_grid 800) as (addresses & Hinit & Hlen & _); [lia|].
  exists addresses. split; [exact Hinit|]. exact Hlen.
Defined.

(** ** SDM: the read *)

Lemma Rsort_head_least v x : In x v -> nth 0 (Rsort v) 0 <= x.
Proof.
  intros Hx. apply (Permutation_in _ (Permutation_sym (Rsort_perm v))) in Hx.
  pose proof (Rsort_sorted v) as Hs.
  destruct (Rsort v) as [|y t]; [destruct Hx|].
  cbn [nth]. destruct Hx as [->|Hx]; [lra|].
  apply StronglySorted_inv in Hs as [_ Hall].
  eapply List.Forall_forall in Hall; eassumption.
Qed.

Lemma getitem_int_clamped (k : Z) (v : list R) :
  v <> [] -> (Z.of_nat (length v) <= k)%Z ->
  getitem_int NaN (inj1 (Rsort v)) (- k) = Fin (smallest v).
Proof.
  intros Hne Hk. unfold getitem_int, smallest.
  assert (Hlen : length (inj1 (Rsort v)) = length v).
  { unfold inj1. rewrite length_map. apply Permutation_length, Rsort_perm. }
  assert (0 < length v)%nat by (destruct v; [contradiction|cbn; lia]).
  rewrite Hlen.
  replace (- k <? 0)%Z with true by lia.
  replace (Z.to_nat (Z.min (Z.max (- k + Z.of_nat (length v)) 0)
                           (Z.of_nat (length v) - 1)))
    with 0%nat by lia.
  unfold inj1. apply (nth_map_lt Fin).
  unfold inj1 in Hlen. rewrite length_map in Hlen. lia.
Qed.

(** X12. When [k_abs] is at least the number of activations, the index
    [-k_abs] is clamped to the first sorted entry: the read of a single
    sample subtracts its smallest activation and zeroes nothing else.
    The defaults are such a case: [k_abs] is 797 for [hidden_size = 800],
    against 128 activations. *)
Theorem top_k_beyond (k : Z) (v : list R) :
  v <> [] -> (Z.of_nat (length v) <= k)%Z ->
  top_k k [inj1 v] = Ok [inj1 (map (fun x => x - smallest v) v)]
  /\ In (smallest v) v
  /\ (forall x, In x v -> smallest v <= x)
  /\ k_abs SDM_k (hidden_size default_args) = 797%Z.
Proof.
  intros Hne Hk.
  assert (Hleast : forall x, In x v -> smallest v <= x)
    by (intros x; apply Rsort_head_least).
  split; [|split; [|split; [exact Hleast|]]].
  - unfold top_k. cbn [map].
    rewrite jnp_sort_fin, getitem_int_clamped by assumption.
    unfold bcast_rows, broadcast_ok. cbn [length].
    rewrite Nat.eqb_refl, !orb_true_r. cbn.
    rewrite bcast_singleton_r. unfold maximum_0, inj1.
    cbn [map]. rewrite !map_map. do 2 f_equal.
    apply map_ext_Forall, List.Forall_forall. intros x Hx.
    cbn. f_equal. specialize (Hleast x Hx).
    rewrite Rmax_left by lra. lra.
  - unfold smallest.
    apply (Permutation_in _ (Rsort_perm v)), nth_In.
    rewrite (Permutation_length (Rsort_perm v)).
    destruct v; [contradiction|cbn; lia].
  - unfold k_abs, SDM_k. cbn [hidden_size default_args].
    rewrite (Zceil_eq 796); [reflexivity|]. lra.
Qed.

Lemma top_k_beyond_witness :
  top_k 797 [inj1 [3; 2; 1]]
  = Ok [inj1 (map (fun x => x - smallest [3; 2; 1]) [3; 2; 1])].
Proof.
  apply (top_k_beyond 797 [3; 2; 1]); [discriminate|cbn; lia].
Defined.

Lemma map_const_replicate {A B} (x : B) (l : list A) :
  map (fun _ => x) l = replicate (length l) x.
Proof. induction l as [|a l IH]; [reflexivity|]. cbn. now rewrite IH. Qed.

Lemma length_column j (a : array2) : length (column j a) = length a.
Proof. unfold column. apply length_map. Qed.

(** A row of [nan] times any matrix with at least one row. *)
Lemma matmul_nan_row (n c : nat) (b : array2) :
  (0 < n)%nat -> length b = n -> rect c b ->
  matmul_checked [replicate n NaN] b = Ok [replicate c NaN].
Proof.
  intros Hn Hlen Hb. unfold matmul_checked, nrows.
  cbn [forallb]. rewrite length_replicate, Hlen, Nat.eqb_refl. cbn [andb].
  unfold matmul, transpose. cbn [map]. do 2 f_equal.
  rewrite (ncols_rect c) by (assumption || (destruct b; [cbn in Hlen; lia|discriminate])).
  rewrite map_map.
  transitivity (map (fun _ : nat => NaN) (seq 0 c));
    [|now rewrite map_const_replicate, length_seq].
  apply map_ext. intros j. unfold dot. apply jnp_sum_nan.
  destruct n as [|n]; [lia|].
  destruct (column j b) as [|x col] eqn:E.
  - pose proof (length_column j b) as Hc. rewrite E, Hlen in Hc. discriminate.
  - cbn. now left.
Qed.

Lemma jnp_sort_nan n : jnp_sort (replicate n NaN) = replicate n NaN.
Proof.
  unfold jnp_sort. induction n as [|n IH]; [reflexivity|].
  cbn [replicate foldr]. rewrite IH. destruct n; reflexivity.
Qed.

Lemma getitem_int_nan n i : getitem_int NaN (replicate n NaN) i = NaN.
Proof.
  unfold getitem_int. generalize (Z.to_nat
    (Z.min (Z.max (if (i <? 0)%Z then (i + Z.of_nat (length (replicate n NaN)))%Z
                   else i) 0)
           (Z.of_nat (length (replicate n NaN)) - 1))) as j.
  induction n as [|n IH]; intros [|j]; cbn; try reflexivity. apply IH.
Qed.

Lemma top_k_nan k n : top_k k [replicate n NaN] = Ok [replicate n NaN].
Proof.
  unfold top_k. cbn [map]. rewrite jnp_sort_nan, getitem_int_nan.
  unfold bcast_rows, broadcast_ok, ncols. cbn [hd length].
  rewrite Nat.eqb_refl, !orb_true_r. cbn [mbind result_bind].
  unfold bcast2. rewrite bcast_singleton_l. cbn [map].
  rewrite bcast_singleton_r, map_replicate.
  unfold maximum_0. cbn [map]. now rewrite map_replicate.
Qed.

(** X13. A sample whose hidden vector is all zero (as [relu] can
    produce) has norm 0: its normalisation is 0/0, and the read returns
    [nan] for every output whatever the keys and values hold. *)
Theorem sdm_layer_zero_sample (sdm_keys sdm_values : array2) (k : R)
    (hidden : Z) (H K V : nat) :
  (0 < H)%nat -> (0 < K)%nat ->
  length sdm_keys = H -> rect K sdm_keys ->
  length sdm_values = K -> rect V sdm_values ->
  sdm_layer sdm_keys sdm_values k hidden [replicate H (Fin 0)]
  = Ok [replicate V NaN].
Proof.
  intros HH HK Hkl Hk Hvl Hv. unfold sdm_layer.
  assert (Hnorm : bcast_rows ndiv [replicate H (Fin 0)]
                    (norm_last2 [replicate H (Fin 0)])
                  = Ok [replicate H NaN]).
  { unfold bcast_rows, broadcast_ok, norm_last2. cbn [map length].
    rewrite Nat.eqb_refl, !orb_true_r.
    unfold bcast2. rewrite bcast_singleton_l. cbn [map].
    rewrite bcast_singleton_r, map_replicate. do 3 f_equal.
    replace (replicate H (Fin 0)) with (inj1 (replicate H 0))
      by (unfold inj1; apply map_replicate).
    rewrite linalg_norm_fin.
    assert (E : sumsq (replicate H 0) = 0).
    { clear. induction H as [|H IH]; [reflexivity|].
      cbn [replicate]. rewrite sumsq_cons, IH. lra. }
    rewrite E, sqrt_0. apply ndiv_zero_zero. }
  rewrite Hnorm. cbn [mbind result_bind].
  rewrite (matmul_nan_row H K) by assumption. cbn [mbind result_bind].
  rewrite top_k_nan. cbn [mbind result_bind].
  now apply matmul_nan_row.
Qed.

Lemma sdm_layer_zero_sample_witness :
  sdm_layer (inj2 [[3; 0]; [4; 1]]) (inj2 [[1]; [2]]) SDM_k 2
    [replicate 2 (Fin 0)]
  = Ok [replicate 1 NaN].
Proof.
  apply (sdm_layer_zero_sample _ _ SDM_k 2 2 2 1);
    try lia; try reflexivity; repeat constructor.
Defined.






(** ** The jitted update: its parts *)

Lemma td_targets_terminal gamma0 (r q : list R) :
  length q = length r ->
  td_targets gamma0 r (replicate (length r) 1) q = r.
Proof.
  unfold td_targets. revert q.
  induction r as [|x r IH]; intros [|y q]; cbn; try discriminate;
    [reflexivity|].
  intros [= H]. rewrite IH by assumption. f_equal. ring.
Qed.

(** X15. For a batch of terminal transitions ([dones] all 1) with real
    Q-values the TD target is the reward itself; a [nan] Q-value of the
    target network, however, makes the target [nan] whatever [dones]
    says, because [(1 - dones) * gamma * nan] is [nan]. *)
Theorem td_target_terminal args :
  (forall r q : list R,
      length q = length r ->
      td_target args (inj1 r) (replicate (length r) (Fin 1)) (inj1 q) = inj1 r)
  /\ (forall (rewards dones q_next_target : array1) (i : nat),
         length dones = length rewards ->
         length q_next_target = length rewards ->
         (i < length rewards)%nat ->
         nth i q_next_target (Fin 0) = NaN ->
         nth i (td_target args rewards dones q_next_target) (Fin 0) = NaN).
Proof.
  split.
  - intros r q Hq.
    replace (replicate (length r) (Fin 1)) with (inj1 (replicate (length r) 1))
      by (unfold inj1; apply map_replicate).
    rewrite td_target_fin by (rewrite ?length_replicate; lia).
    now rewrite td_targets_terminal.
  - intros rewards dones q i Hd Hq Hi Hnan. unfold td_target.
    rewrite (bcast_same_length nmul) by (rewrite !length_map; lia).
    rewrite bcast_same_length
      by (rewrite length_zip_with, !length_map; lia).
    rewrite (nth_zip_with_lt _ _ _ _ (Fin 0) (Fin 0))
      by (rewrite ?length_zip_with, ?length_map; lia).
    rewrite (nth_zip_with_lt _ _ _ _ (Fin 0) (Fin 0))
      by (rewrite ?length_map; lia).
    rewrite Hnan.
    destruct (nth i rewards (Fin 0)),
      (nth i (map (fun y => nmul y (Fin (gamma args)))
                (map (fun d => nsub (Fin 1) d) dones)) (Fin 0)); reflexivity.
Qed.

Section UpdateMore.

Context {OptState : Type}.


End UpdateMore.


(** ** SDM: batches *)

(** X17. Both divisions by a per-sample quantity in [sdm_layer] align the
    [B] per-sample numbers with the last axis.  For a batch of [B]
    samples with [H] hidden entries the normalisation therefore raises
    unless [B = H], [B = 1] or [H = 1], and so does the top-k step on
    [B] rows of [K] activations unless [B = K], [B = 1] or [K = 1]. *)
Theorem sdm_layer_batch_shape (B H : nat) :
  B <> H -> B <> 1%nat -> H <> 1%nat -> (0 < B)%nat ->
  (forall sdm_keys sdm_values k hidden (x : array2),
      length x = B -> rect H x ->
      sdm_layer sdm_keys sdm_values k hidden x
      = Raise (ShapeError "incompatible shapes for broadcasting"))
  /\ (forall k (activations : array2),
         length activations = B -> rect H activations ->
         top_k k activations
         = Raise (ShapeError "incompatible shapes for broadcasting")).
Proof.
  intros HBH HB HH Hpos.
  assert (Hbad : forall (f : num -> num -> num) (a : array2) (v : array1),
             length a = B -> rect H a -> length v = B ->
             bcast_rows f a v
             = Raise (ShapeError "incompatible shapes for broadcasting")).
  { intros f a v Ha Hr Hv. unfold bcast_rows, broadcast_ok.
    rewrite (ncols_rect H) by (assumption || (destruct a; [cbn in Ha; lia|discriminate])).
    rewrite Hv.
    destruct (Nat.eqb_spec H B); [congruence|].
    destruct (Nat.eqb_spec H 1); [congruence|].
    destruct (Nat.eqb_spec B 1); [congruence|]. reflexivity. }
  split.
  - intros sdm_keys sdm_values k hidden x Hx Hr. unfold sdm_layer.
    rewrite Hbad; [reflexivity|assumption|assumption|].
    unfold norm_last2. now rewrite length_map.
  - intros k activations Ha Hr. unfold top_k.
    rewrite Hbad; [reflexivity|assumption|assumption|].
    now rewrite !length_map.
Qed.

Lemma sdm_layer_batch_shape_witness :
  sdm_layer (inj2 [[3; 0]; [4; 1]; [0; 2]]) (inj2 [[1]; [2]]) SDM_k 3
    (inj2 [[1; 2; 3]; [4; 5; 6]])
  = Raise (ShapeError "incompatible shapes for broadcasting").
Proof.
  apply (sdm_layer_batch_shape 2 3); try lia; [reflexivity|repeat constructor].
Defined.

(** ** DSOM: one-dimensional observations *)

(** [dsom_update] on real arrays up to the last line. *)
Lemma dsom_update_reading_squeeze self (params : gmap string array2)
    obs mode c a D Aw m0 :
  rect D c -> c <> [] -> rect D obs -> rect Aw a -> length a = length c ->
  params !! "som_codebook_vecs" = Some (inj2 c) ->
  params !! "som_addresses" = Some (inj2 a) ->
  max_dist self = Fin m0 ->
  Rmax (largest_pairwise c) m0 <> 0 ->
  supported_mode mode ->
  dsom_update self params (inj2 obs) mode
  = (set_max_dist self (Fin (Rmax (largest_pairwise c) m0)),
     Ok (squeeze_add (inj2 c)
           (map (map clip_1)
              (reduced_delta (lr self) (elasticity self)
                 (Rmax (largest_pairwise c) m0) a c mode obs)))).
Proof.
  intros HC Hne HO HA HlenA Hcb Haddr Hm Hmax Hmode.
  set (maxd := Rmax (largest_pairwise c) m0) in *.
  unfold dsom_update, getitem. rewrite Hcb, Haddr.
  cbv zeta.
  rewrite (current_max_dist_fin D) by assumption.
  cbn [max_dist set_max_dist elasticity lr nmaximum]. rewrite Hm.
  cbn [nmaximum]. fold maxd.
  rewrite !(diff_fin D) by assumption.
  rewrite !stage_dist, !stage_winner_idx, !stage_winner_cb_vecs.
  rewrite !(stage_diff_again c obs D) by assumption.
  rewrite !stage_dist.
  rewrite !stage_denominators by assumption.
  rewrite !(stage_numerators a c obs D Aw) by assumption.
  rewrite !stage_h.
  rewrite !stage_dist_normed by assumption.
  rewrite !stage_diff_table.
  rewrite !stage_delta_w_batch.
  rewrite length_batch_delta.
  unfold reduced_delta. rewrite !nrows_inj2, !ncols_inj2.
  destruct Hmode as [->| ->]; cbn [String.eqb Ascii.eqb Bool.eqb]; cbn match;
    reflexivity.
Qed.

Lemma shaped_zip_with {A} (f : A -> A -> A) n d x y :
  shaped n d x -> shaped n d y -> shaped n d (zip_with (zip_with f) x y).
Proof.
  intros [Hx Fx] [Hy Fy]. split; [rewrite length_zip_with; lia|].
  clear Hx Hy. revert y Fy.
  induction Fx as [|r x Hr _ IH]; intros [|s y] Fy; cbn;
    try apply List.Forall_nil.
  apply List.Forall_cons_iff in Fy as [Hs Fy].
  apply List.Forall_cons; [rewrite length_zip_with; lia|now apply IH].
Qed.

Lemma shaped_sum_axis0 n d (items : array3) :
  Forall (shaped n d) items -> shaped n d (sum_axis0 n d items).
Proof.
  unfold sum_axis0. induction 1 as [|x items Hx _ IH]; cbn [foldr].
  - split; [apply length_replicate|].
    apply List.Forall_forall. intros r Hr.
    apply list_elem_of_In, elem_of_replicate in Hr as [-> _].
    apply length_replicate.
  - now apply shaped_zip_with.
Qed.

Lemma shaped_map {A B} (f : A -> B) n d x :
  shaped n d x -> shaped n d (map (map f) x).
Proof.
  intros [Hx Fx]. split; [now rewrite length_map|].
  apply List.Forall_forall. intros r Hr.
  apply in_map_iff in Hr as (r0 & <- & Hr0). rewrite length_map.
  unfold rect in Fx. rewrite List.Forall_forall in Fx. auto.
Qed.

Lemma shaped_reduced_delta lr0 e maxd a c mode obs D :
  rect D c -> c <> [] -> rect D obs ->
  shaped (length c) D (reduced_delta lr0 e maxd a c mode obs).
Proof.
  intros Hc Hne Hobs. unfold reduced_delta, nrows.
  rewrite (ncols_rect D) by assumption.
  assert (Hsum : shaped (length c) D
                   (sum_axis0 (length c) D (batch_delta lr0 e maxd a c obs))).
  { apply shaped_sum_axis0. unfold batch_delta.
    apply List.Forall_forall. intros item Hitem.
    apply in_map_iff in Hitem as (o & <- & Ho).
    split; [now rewrite length_map, length_seq|].
    apply List.Forall_forall. intros row Hrow.
    apply in_map_iff in Hrow as (i & <- & Hi). apply in_seq in Hi.
    unfold item_delta. rewrite length_map, length_zip_with.
    unfold rect in Hc, Hobs. rewrite List.Forall_forall in Hc, Hobs.
    rewrite (Hobs o Ho), (Hc (nth i c [])) by (apply nth_In; lia). lia. }
  destruct (String.eqb mode "avg"); [now apply shaped_map|exact Hsum].
Qed.

(** X18. With one-dimensional observations and at least two prototypes,
    [cb_vecs.squeeze()] also drops the observation axis, and its sum with
    the (N, 1) delta broadcasts: the codebook that [dsom_update] returns
    has shape (N, N) instead of (N, 1). *)
Theorem dsom_update_one_dim self (params : gmap string array2)
    (obs c a : list (list R)) (mode : string) (Aw : nat) (m0 : R) :
  rect 1 c -> (2 <= length c)%nat -> rect 1 obs -> rect Aw a ->
  length a = length c ->
  params !! "som_codebook_vecs" = Some (inj2 c) ->
  params !! "som_addresses" = Some (inj2 a) ->
  max_dist self = Fin m0 ->
  Rmax (largest_pairwise c) m0 <> 0 ->
  supported_mode mode ->
  exists new_cb_vecs,
    snd (dsom_update self params (inj2 obs) mode) = Ok new_cb_vecs
    /\ shaped (length c) (length c) new_cb_vecs.
Proof.
  intros Hc Hn Hobs Ha Hlen Hcb Haddr Hm Hmax Hmode.
  assert (Hne : c <> []) by (destruct c; [cbn in Hn; lia|discriminate]).
  rewrite (dsom_update_reading_squeeze self params obs mode c a 1 Aw m0)
    by assumption.
  cbn [snd]. eexists. split; [reflexivity|].
  pose proof (shaped_map clip_1 _ _ _
                (shaped_reduced_delta (lr self) (elasticity self)
                   (Rmax (largest_pairwise c) m0) a c mode obs 1 Hc Hne Hobs))
    as [Hdl Hdr].
  set (delta_w := map (map clip_1) _) in *.
  unfold squeeze_add. rewrite ncols_inj2, nrows_inj2, (ncols_rect 1) by assumption.
  unfold nrows. cbn [Nat.eqb andb].
  destruct (Nat.eqb_spec (length c) 1) as [E|_]; [lia|]. cbn [negb].
  unfold bcast2. rewrite bcast_singleton_l.
  split; [now rewrite length_map|].
  apply List.Forall_forall. intros row Hrow.
  apply in_map_iff in Hrow as (d & <- & Hd).
  unfold rect in Hdr. rewrite List.Forall_forall in Hdr.
  specialize (Hdr d Hd). destruct d as [|y [|y' d]]; try discriminate.
  rewrite bcast_singleton_r, !length_map. unfold inj2. now rewrite length_map.
Qed.

Lemma dsom_update_one_dim_witness :
  exists new_cb_vecs,
    snd (dsom_update DSOM_init (dsom_params (inj2 [[0]; [3]]) (inj2 [[0; 0]; [1; 0]]))
           (inj2 [[1]]) "avg")
    = Ok new_cb_vecs
    /\ shaped 2 2 new_cb_vecs.
Proof.
  apply (dsom_update_one_dim DSOM_init _ [[1]] [[0]; [3]] [[0; 0]; [1; 0]]
           "avg" 2 0).
  - repeat constructor.
  - cbn. lia.
  - repeat constructor.
  - repeat constructor.
  - reflexivity.
  - apply dsom_params_cb.
  - apply dsom_params_addr.
  - reflexivity.
  - pose proof (proj1 (largest_pairwise_spec [[0]; [3]] ltac:(discriminate))
                  [0] [3] ltac:(now left) ltac:(right; now left)) as Hle.
    assert (0 < euclid [0] [3]).
    { unfold euclid, sumsq. cbn. apply sqrt_lt_R0. lra. }
    pose proof (Rmax_l (largest_pairwise [[0]; [3]]) 0). lra.
  - now left.
Defined.

(** ** The training loop: what an iteration leaves alone *)

Section LoopKeeps.

Context {OptState World : Type}.
Variable apply_fn : q_network_t -> gmap string array2 -> array2 -> array2.
Variable grad : (gmap string array2 -> num) -> gmap string array2 -> gmap string array2.
Variable adam_update :
  gmap string array2 -> OptState -> gmap string array2 -> gmap string array2 * OptState.
Variable interact : World -> @TrainState OptState -> q_network_t -> R -> World * nat.
Variable rb_sample : World -> Z -> Batch * World.

Local Abbreviation loop_body' :=
  (loop_body apply_fn grad adam_update interact rb_sample).

Implicit Types (st : @LoopState OptState World).

(** X19. The target parameters change only in the target sync: an
    iteration at a step up to [learning_starts], or at a step that is no
    multiple of [target_network_frequency], returns them as they were,
    also when it trains. *)
Theorem target_params_kept args t st st' :
  loop_body apply_fn grad adam_update interact rb_sample args t st = Ok st' ->
  (t <= learning_starts args)%Z
  \/ (t mod target_network_frequency args <> 0)%Z ->
  target_params (q_state st') = target_params (q_state st).
Proof.
  intros H Hcase. unfold loop_body in H.
  apply bind_Ok_inv in H as (eps & _ & H).
  destruct (interact _ _ _ _) as [w finished].
  destruct (Z.gtb_spec t (learning_starts args)) as [Hgt|Hle];
    [|now injection H as <-].
  destruct Hcase as [Hle|Hmod]; [lia|].
  apply bind_Ok_inv in H as (r & _ & H).
  apply bind_Ok_inv in H as (st1 & H1 & H).
  assert (Ht1 : target_params (q_state st1) = target_params (q_state st)).
  { destruct (r =? 0)%Z.
    - cbn in H1. destruct (rb_sample w (batch_size args)) as [data w1].
      apply bind_Ok_inv in H1 as ([[[loss old_val] qs] net] & Hup & [= <-]).
      cbn. now apply update_target in Hup.
    - now injection H1 as <-. }
  apply bind_Ok_inv in H as (r' & Hr' & H).
  unfold py_mod in Hr'.
  destruct (target_network_frequency args =? 0)%Z; [discriminate|].
  injection Hr' as <-.
  destruct (Z.eqb_spec (t mod target_network_frequency args) 0) as [E|_];
    [contradiction|].
  now injection H as <-.
Qed.


End LoopKeeps.

(** An iteration that trains without a target sync: step 10 of a run
    that trains from step 0 on. *)
Lemma tenth_iteration_trains :
  exists st',
    loop_body zero_apply id_grad plain_update still_world empty_sample
      (with_learning_starts (-1) (with_architecture "BASELINE" default_args)) 10
      {| world := tt;
         q_state := {| step := 0; params := one_param QNetwork;
                       target_params := one_param QNetwork;
                       opt_state := tt |};
         q_network := QNetwork; q_network_k := None; num_episodes := 0 |}
    = Ok st'.
Proof.
  unfold loop_body, epsilon_of.
  cbn [eps_scheduler with_architecture with_learning_starts default_args
       String.eqb Ascii.eqb Bool.eqb start_e end_e exploration_fraction
       total_timesteps].
  rewrite linear_schedule_ok by lra.
  cbn [mbind result_bind still_world world q_state q_network num_episodes
       q_network_k learning_starts with_learning_starts with_architecture
       default_args train_frequency target_network_frequency batch_size].
  change (10 >? -1)%Z with true. cbv iota.
  change (py_mod 10 10) with (Ok 0%Z : result Z).
  cbn [mbind result_bind].
  change (0 =? 0)%Z with true. cbv iota.
  unfold empty_sample, update, dsom_block, sdm_block, apply_gradients,
    apply_updates, mse_loss, plain_update, id_grad, zero_apply.
  cbn [architecture with_learning_starts with_architecture default_args
       String.eqb Ascii.eqb Bool.eqb mbind result_bind map mapM
       observations actions next_observations rewards dones
       params opt_state target_params step replace_params].
  rewrite tree_map2_ok by reflexivity.
  cbn [mbind mret result_bind result_ret].
  change (py_mod 10 500) with (Ok 10%Z : result Z).
  cbn [mbind result_bind].
  change (10 =? 0)%Z with false. cbv iota.
  eexists. reflexivity.
Defined.

Lemma target_params_kept_witness :
  exists st',
    loop_body zero_apply id_grad plain_update still_world empty_sample
      (with_learning_starts (-1) (with_architecture "BASELINE" default_args)) 10
      {| world := tt;
         q_state := {| step := 0; params := one_param QNetwork;
                       target_params := one_param QNetwork;
                       opt_state := tt |};
         q_network := QNetwork; q_network_k := None; num_episodes := 0 |}
    = Ok st'
    /\ target_params (q_state st') = one_param QNetwork.
Proof.
  destruct tenth_iteration_trains as [st' Hbody].
  exists st'. split; [exact Hbody|].
  apply (target_params_kept zero_apply id_grad plain_update still_world
           empty_sample _ 10 _ st' Hbody).
  right. discriminate.
Defined.


(** ** Further instances *)

Lemma linear_schedule_edges_witness :
  linear_schedule 1 (5 / 100) 0 7 = Raise ZeroDivisionError.
Proof. apply (linear_schedule_edges 1 (5 / 100)). Defined.

Lemma dsom_update_errors_witness :
  dsom_update DSOM_init (sdm_params (inj2 [[3]; [4]]) (inj2 [[1]]))
    (inj2 [[1; 0]]) "avg"
  = (DSOM_init, Raise (KeyError "som_codebook_vecs")).
Proof.
  apply (dsom_update_errors DSOM_init). reflexivity.
Defined.


Lemma td_target_terminal_witness :
  td_target default_args (inj1 [1; 2]) (replicate 2 (Fin 1)) (inj1 [7; 9])
  = inj1 [1; 2].
Proof.
  apply (proj1 (td_target_terminal default_args) [1; 2] [7; 9]). reflexivity.
Defined.
